(** * maybe_uninit: a wrapper of possibly uninitialized objects

    A shallow embedding of the header [maybe_uninit.hpp] and the properties
    of its storage, construction, access and destruction contract.

    The header exists in two variants, both embedded here:
    - the earlier one (namespace contents with [default_init_tag],
      [value_init_tag], a [SELF_DESTRUCT] flag, members [default_init],
      [init], [ptr], [assume_init], [destruct]): module [V1];
    - the later one (tags [default_init_t], [paren_init_t], [brace_init_t],
      explicit-object members [default_init], [paren_init], [brace_init],
      [ptr], [ref], [bytes], [destroy]): module [V2].

    What the header leaves to the compiler is a parameter of the model: a
    payload type [T] is described by a record of what the compiler reports
    about it (its traits, its initialisation forms, its destructor) and the
    functions of the header are written over that record. *)

From Stdlib Require Import ZArith List Bool Lia.
From coqutil Require Import Byte Word.Interface Word.Properties Word.Naive Word.LittleEndianList.
From stdpp Require Import base option list gmap.

(** ** The abstract machine *)

(** Addresses of cells, and the values that exceptions carry. *)
Definition addr := N.
Definition exn := nat.

(** The storage of one cell: the bytes of the union's only member,
    whether an object of the payload type is within its lifetime there,
    and whether the bytes are a value the program may depend on: storage
    that was never written, and an object whose initialisation performed
    nothing, have an indeterminate value, whatever bytes the storage
    happens to keep. [live] and [determinate] belong to the abstract
    machine: no function of the header can read them. *)
Record cell := { storage : list byte; live : bool; determinate : bool }.

(** The observable effect of a payload type: its destructor ran on the
    object stored at an address. *)
Inductive event := destructor_call (a : addr).

Record world := { cells : gmap addr cell; trace : list event }.

Definition set_cell (a : addr) (c : cell) (w : world) : world :=
  {| cells := <[a := c]> (cells w); trace := trace w |}.

Definition log (e : event) (w : world) : world :=
  {| cells := cells w; trace := trace w ++ [e] |}.

(** How the evaluation of an expression ends. *)
Inductive outcome (A : Type) : Type :=
| Returned (a : A)   (* normal completion *)
| Thrown (e : exn)   (* an exception leaves the expression *)
| Terminated         (* std::terminate: an exception met a noexcept boundary *)
| Undefined.         (* a precondition of the language was broken *)
Arguments Returned {A} a.
Arguments Thrown {A} e.
Arguments Terminated {A}.
Arguments Undefined {A}.

(** A function declared [noexcept(b)]: with [b] true an exception that
    would leave it ends the program instead. *)
Definition enforce {A} (b : bool) (o : outcome A) : outcome A :=
  match o with
  | Thrown e => if b then Terminated else Thrown e
  | _ => o
  end.

(** Computations over the world. *)
Definition M (A : Type) : Type := world -> outcome A * world.

Definition ret {A} (a : A) : M A := fun w => (Returned a, w).

Definition bind {A B} (m : M A) (k : A -> M B) : M B := fun w =>
  match m w with
  | (Returned a, w') => k a w'
  | (Thrown e, w') => (Thrown e, w')
  | (Terminated, w') => (Terminated, w')
  | (Undefined, w') => (Undefined, w')
  end.

Notation "'let!' x ':=' m 'in' k" := (bind m (fun x => k))
  (at level 10, x name, m at level 100, k at level 200).

Definition noexcept {A} (b : bool) (m : M A) : M A := fun w =>
  let (o, w') := m w in (enforce b o, w').

(** A function of the header as the compiler sees it: the constraint of its
    [requires]-clause, its exception specification, and its body, which is
    [None] when instantiating it is an error ([static_assert], or a cast
    that the language refuses). *)
Record fn (A : Type) := {
  fn_requires : bool;
  fn_noexcept : bool;
  fn_body : option (M A)
}.
Arguments fn_requires {A} f.
Arguments fn_noexcept {A} f.
Arguments fn_body {A} f.

(** Calling a function: [None] when the call does not compile. *)
Definition call {A} (f : fn A) : option (M A) :=
  if fn_requires f then
    match fn_body f with
    | Some m => Some (noexcept (fn_noexcept f) m)
    | None => None
    end
  else None.

(** ** Handles, pointers, references and spans *)

Inductive value_category := lvalue | rvalue.

(** The object expression a member function is called on. *)
Record handle := { h_addr : addr; h_const : bool; h_cat : value_category }.

(** Inside a constructor, [*this]. *)
Definition this (a : addr) : handle :=
  {| h_addr := a; h_const := false; h_cat := lvalue |}.

Record pointer := { p_addr : addr; p_const : bool }.
Record reference := { r_addr : addr; r_const : bool; r_cat : value_category }.

(** [std::span<byte_type, N>]. *)
Record span := { s_addr : addr; s_extent : nat; s_const : bool }.

(** [*p] *)
Definition deref (p : pointer) : reference :=
  {| r_addr := p_addr p; r_const := p_const p; r_cat := lvalue |}.

(** The types [Self] can be deduced to in [this Self&& self]: the cell
    type, possibly const, possibly behind a reference. *)
Inductive ref_kind := no_ref | lvalue_ref | rvalue_ref.
Record self_type := { st_const : bool; st_ref : ref_kind }.

(** Deduction of [Self] for a forwarding reference: an lvalue of type [X]
    gives [X&], an rvalue gives [X]. *)
Definition deduce_Self (h : handle) : self_type :=
  {| st_const := h_const h;
     st_ref := match h_cat h with lvalue => lvalue_ref | rvalue => no_ref end |}.

(** [std::is_reference_v], [std::remove_reference_t], [std::is_const_v]
    (a reference type is never const). *)
Definition is_reference_v (t : self_type) : bool :=
  match st_ref t with no_ref => false | _ => true end.
Definition remove_reference_t (t : self_type) : self_type :=
  {| st_const := st_const t; st_ref := no_ref |}.
Definition is_const_v (t : self_type) : bool :=
  match st_ref t with no_ref => st_const t | _ => false end.

(** ** Payload types *)

(** One initialisation form of [T] for given arguments: whether the
    selected constructor is [noexcept], and what running it gives:
    [Returned (Some v)] for an object of value [v], [Returned None] when
    the initialisation performs nothing and the bytes keep what they had
    (default initialisation of an [int]). *)
Record ctor (obj : Type) := {
  ctor_noexcept : bool;
  ctor_run : outcome (option obj)
}.
Arguments ctor_noexcept {obj} c.
Arguments ctor_run {obj} c.

(** What the compiler knows about the payload type [T], over arguments of
    type [Arg]. An initialisation form is [None] where the expression is
    ill-formed for [T]. *)
Record payload (Arg : Type) := {
  obj : Type;
  size_of : nat;                               (* sizeof(T) *)
  is_const : bool;                             (* std::is_const_v<T> *)
  encode : obj -> list byte;                   (* object representation *)
  decode : list byte -> option obj;
  new_default : option (ctor obj);             (* new (p) T *)
  new_paren : list Arg -> option (ctor obj);   (* new (p) T(args...) *)
  new_brace : list Arg -> option (ctor obj);   (* new (p) T{args...} *)
  destructor : obj -> outcome unit;            (* the body of ~T() *)
  (* whether the constructor or assignment operator of T that copies,
     respectively moves, a T is usable and trivial *)
  trivial_copy_constructor : bool;
  trivial_move_constructor : bool;
  trivial_copy_assignment : bool;
  trivial_move_assignment : bool;
  (* <type_traits> *)
  is_destructible : bool;
  is_trivially_destructible : bool;
  is_nothrow_destructible : bool;
  is_trivially_copy_constructible : bool;
  is_trivially_move_constructible : bool;
  is_trivially_copy_assignable : bool;
  is_trivially_move_assignable : bool;
  is_nothrow_default_constructible : bool;
  is_nothrow_constructible : list Arg -> bool
}.
Arguments obj {Arg} T : rename.
Arguments size_of {Arg} T : rename.
Arguments is_const {Arg} T : rename.
Arguments encode {Arg} T v : rename.
Arguments decode {Arg} T bs : rename.
Arguments new_default {Arg} T : rename.
Arguments new_paren {Arg} T args : rename.
Arguments new_brace {Arg} T args : rename.
Arguments destructor {Arg} T v : rename.
Arguments trivial_copy_constructor {Arg} T : rename.
Arguments trivial_move_constructor {Arg} T : rename.
Arguments trivial_copy_assignment {Arg} T : rename.
Arguments trivial_move_assignment {Arg} T : rename.
Arguments is_destructible {Arg} T : rename.
Arguments is_trivially_destructible {Arg} T : rename.
Arguments is_nothrow_destructible {Arg} T : rename.
Arguments is_trivially_copy_constructible {Arg} T : rename.
Arguments is_trivially_move_constructible {Arg} T : rename.
Arguments is_trivially_copy_assignable {Arg} T : rename.
Arguments is_trivially_move_assignable {Arg} T : rename.
Arguments is_nothrow_default_constructible {Arg} T : rename.
Arguments is_nothrow_constructible {Arg} T args : rename.

(** What the language guarantees of every object type. *)
Record payload_ok {Arg} (T : payload Arg) : Prop := {
  encode_length : forall v, length (encode T v) = size_of T;
  decode_encode : forall v, decode T (encode T v) = Some v;
  trivial_destructor_destructible :
    is_trivially_destructible T = true -> is_destructible T = true
}.

Section machine.
Context {Arg : Type} (T : payload Arg).

(** Evaluating an initialisation form on its own; [None] when the form is
    ill-formed. *)
Definition initialise (o : option (ctor (obj T))) : option (outcome (option (obj T))) :=
  (fun c => enforce (ctor_noexcept c) (ctor_run c)) <$> o.

(** Direct construction: the value of the expression [T(args...)]. *)
Definition direct_init (args : list Arg) : option (outcome (option (obj T))) :=
  initialise (new_paren T args).

(** The new-expression [::new (p) T ...] with the initialisation form [c]
    selected, [p] the address of the member of the cell at [a]. An
    initialisation that performs nothing starts the lifetime of an object
    of indeterminate value. A constructor that throws leaves no object,
    and nothing is known of the bytes it may have written. *)
Definition placement_new (c : ctor (obj T)) (a : addr) : M pointer := fun w =>
  match cells w !! a with
  | None => (Undefined, w)
  | Some cl =>
    match enforce (ctor_noexcept c) (ctor_run c) with
    | Returned (Some v) =>
      (Returned {| p_addr := a; p_const := false |},
       set_cell a {| storage := encode T v; live := true; determinate := true |} w)
    | Returned None =>
      (Returned {| p_addr := a; p_const := false |},
       set_cell a {| storage := storage cl; live := true; determinate := false |} w)
    | Thrown e =>
      (Thrown e,
       set_cell a {| storage := storage cl; live := false; determinate := false |} w)
    | Terminated => (Terminated, w)
    | Undefined => (Undefined, w)
    end
  end.

(** [std::destroy_at(p)]: calls [p->~T()]. A trivial destructor performs
    no action. Otherwise an object must be within its lifetime at [p];
    the destructor runs on it and its lifetime ends. *)
Definition destroy_at (a : addr) : M unit := fun w =>
  match cells w !! a with
  | None => (Undefined, w)
  | Some cl =>
    if is_trivially_destructible T then (Returned tt, w)
    else if live cl then
      match decode T (storage cl) with
      | Some v =>
        (enforce (is_nothrow_destructible T) (destructor T v),
         log (destructor_call a)
             (set_cell a {| storage := storage cl; live := false;
                            determinate := determinate cl |} w))
      | None => (Undefined, w)
      end
    else (Undefined, w)
  end.

(** Reading the payload through a reference or a pointer: defined only
    within the lifetime of an object whose value is determinate. *)
Definition load (w : world) (r : reference) : option (obj T) :=
  cl ← cells w !! r_addr r;
  if live cl && determinate cl then decode T (storage cl) else None.

(** The cell at [a] holds a live object of value [v]. *)
Definition holds (w : world) (a : addr) (v : obj T) : Prop :=
  exists cl, cells w !! a = Some cl /\ live cl = true /\ determinate cl = true /\
             decode T (storage cl) = Some v.

End machine.

(** How often the destructor ran on the object at [a]. *)
Definition destructor_calls (a : addr) (w : world) : nat :=
  length (List.filter (fun e => match e with destructor_call b => N.eqb a b end) (trace w)).

Definition well_formed {A} (o : option A) : bool :=
  match o with Some _ => true | None => false end.

Definition discard {A} (m : M A) : M unit := let! _ := m in ret tt.

(** ** The later variant of the header *)

Module V2.

(** [namespace detail] *)
Module detail.
Section concepts.
Context {Arg : Type} (T : payload Arg).

(** The three constructibility concepts test a new-expression at
    [static_cast<void*>(p)] with [T* p]: the cast is ill-formed for a
    const [T], whatever the initialiser. *)
Definition default_constructible : bool :=
  negb (is_const T) && well_formed (new_default T).

Definition paren_constructible_from (args : list Arg) : bool :=
  negb (is_const T) && well_formed (new_paren T args).

Definition brace_constructible_from (args : list Arg) : bool :=
  negb (is_const T) && well_formed (new_brace T args).

Definition nothrow (o : option (ctor (obj T))) : bool :=
  match o with Some c => ctor_noexcept c | None => false end.

Definition nothrow_default_constructible : bool :=
  negb (is_const T) && nothrow (new_default T).

Definition nothrow_paren_constructible_from (args : list Arg) : bool :=
  negb (is_const T) && nothrow (new_paren T args).

Definition nothrow_brace_constructible_from (args : list Arg) : bool :=
  negb (is_const T) && nothrow (new_brace T args).
End concepts.

(** [const_ref]: [std::is_reference_v<T> and
    std::is_const_v<std::remove_reference_t<T>>]. *)
Definition const_ref (t : self_type) : bool :=
  is_reference_v t && is_const_v (remove_reference_t t).
End detail.

(** [union maybe_uninit] *)
Module maybe_uninit.
Section members.
Context {Arg : Type} (T : payload Arg).

(** The type of [self.object] is const when the handle or [T] is. *)
Definition object_const (self : handle) : bool := h_const self || is_const T.

(** [::new (static_cast<void*>(std::addressof(self.object))) T ...],
    dereferenced. The cast to [void*] is ill-formed on a const object. *)
Definition new_object (o : option (ctor (obj T))) (self : handle)
  : option (M reference) :=
  match o with
  | Some c =>
    if object_const self then None
    else Some (let! p := placement_new T c (h_addr self) in ret (deref p))
  | None => None
  end.

Definition default_init (self : handle) : fn reference :=
  {| fn_requires := detail.default_constructible T;
     fn_noexcept := detail.nothrow_default_constructible T;
     fn_body := new_object (new_default T) self |}.

Definition paren_init (self : handle) (args : list Arg) : fn reference :=
  {| fn_requires := detail.paren_constructible_from T args;
     fn_noexcept := detail.nothrow_paren_constructible_from T args;
     fn_body := new_object (new_paren T args) self |}.

Definition brace_init (self : handle) (args : list Arg) : fn reference :=
  {| fn_requires := detail.brace_constructible_from T args;
     fn_noexcept := detail.nothrow_brace_constructible_from T args;
     fn_body := new_object (new_brace T args) self |}.

(** [maybe_uninit() noexcept {}] *)
Definition ctor (a : addr) : fn unit :=
  {| fn_requires := true; fn_noexcept := true; fn_body := Some (ret tt) |}.

(** [maybe_uninit(default_init_t)] *)
Definition ctor_default_init_t (a : addr) : fn unit :=
  {| fn_requires := detail.default_constructible T;
     fn_noexcept := detail.nothrow_default_constructible T;
     fn_body := discard <$> call (default_init (this a)) |}.

(** [maybe_uninit(paren_init_t, Args&&...)] *)
Definition ctor_paren_init_t (a : addr) (args : list Arg) : fn unit :=
  {| fn_requires := detail.paren_constructible_from T args;
     fn_noexcept := detail.nothrow_paren_constructible_from T args;
     fn_body := discard <$> call (paren_init (this a) args) |}.

(** [maybe_uninit(brace_init_t, Args&&...)] *)
Definition ctor_brace_init_t (a : addr) (args : list Arg) : fn unit :=
  {| fn_requires := detail.brace_constructible_from T args;
     fn_noexcept := detail.nothrow_brace_constructible_from T args;
     fn_body := discard <$> call (brace_init (this a) args) |}.

(** [~maybe_uninit()]: defaulted for a trivially destructible [T], an
    empty body otherwise; its exception specification is the implicit
    one. *)
Definition dtor (a : addr) : fn unit :=
  {| fn_requires := true;
     fn_noexcept := is_nothrow_destructible T;
     fn_body := Some (ret tt) |}.

Definition ptr (self : handle) : fn pointer :=
  {| fn_requires := true; fn_noexcept := true;
     fn_body := Some (ret {| p_addr := h_addr self; p_const := object_const self |}) |}.

(** [std::forward<Self>(self).object] *)
Definition ref (self : handle) : fn reference :=
  {| fn_requires := true; fn_noexcept := true;
     fn_body := Some (ret {| r_addr := h_addr self;
                             r_const := object_const self;
                             r_cat := h_cat self |}) |}.

(** [bytes]: [byte_type] is [std::byte const] when [const_ref<Self>] or
    [T] is const. The [reinterpret_cast<byte_type*>] of the address of
    [self.object] may not cast constness away. *)
Definition byte_type_const (self : handle) : bool :=
  detail.const_ref (deduce_Self self) || is_const T.

Definition bytes (self : handle) : fn span :=
  {| fn_requires := true; fn_noexcept := true;
     fn_body :=
       if object_const self && negb (byte_type_const self) then None
       else Some (ret {| s_addr := h_addr self;
                         s_extent := size_of T;
                         s_const := byte_type_const self |}) |}.

Definition destroy (self : handle) : fn unit :=
  {| fn_requires := true;
     fn_noexcept := is_nothrow_destructible T;
     fn_body :=
       if negb (is_trivially_destructible T) then
         if is_destructible T then Some (destroy_at T (h_addr self)) else None
       else Some (ret tt) |}.
End members.
End maybe_uninit.

(** The free functions. The cell they return is built in place at the
    address [a] of the object they initialise. *)
Section free_functions.
Context {Arg : Type} (T : payload Arg).

Definition uninit (a : addr) : fn unit :=
  {| fn_requires := true; fn_noexcept := true;
     fn_body := call (maybe_uninit.ctor a) |}.

Definition default_init (a : addr) : fn unit :=
  {| fn_requires := detail.default_constructible T;
     fn_noexcept := detail.nothrow_default_constructible T;
     fn_body := call (maybe_uninit.ctor_default_init_t T a) |}.

(** The overloads [paren_init<T, Args...>(Args&&... args)] and
    [brace_init<T, Args...>(Args&&... args)]. *)
Definition paren_init (a : addr) (args : list Arg) : fn unit :=
  {| fn_requires := detail.paren_constructible_from T args;
     fn_noexcept := detail.nothrow_paren_constructible_from T args;
     fn_body := call (maybe_uninit.ctor_paren_init_t T a args) |}.

Definition brace_init (a : addr) (args : list Arg) : fn unit :=
  {| fn_requires := detail.brace_constructible_from T args;
     fn_noexcept := detail.nothrow_brace_constructible_from T args;
     fn_body := call (maybe_uninit.ctor_brace_init_t T a args) |}.

(** The overloads [paren_init(T&& t)] and [brace_init(T&& t)] deduce
    the payload type from their argument. [T] here is that type with
    its reference removed; for an lvalue argument the template
    parameter is a reference type, which [detail::sized] rejects. *)
Definition paren_init_deduced (a : addr) (cat : value_category) (t : Arg) : fn unit :=
  {| fn_requires :=
       match cat with
       | lvalue => false
       | rvalue => detail.paren_constructible_from T [t]
       end;
     fn_noexcept := detail.nothrow_paren_constructible_from T [t];
     fn_body := call (maybe_uninit.ctor_paren_init_t T a [t]) |}.

Definition brace_init_deduced (a : addr) (cat : value_category) (t : Arg) : fn unit :=
  {| fn_requires :=
       match cat with
       | lvalue => false
       | rvalue => detail.brace_constructible_from T [t]
       end;
     fn_noexcept := detail.nothrow_brace_constructible_from T [t];
     fn_body := call (maybe_uninit.ctor_brace_init_t T a [t]) |}.
End free_functions.

(** A call that names the payload type, [paren_init<T>(args...)] or
    [brace_init<T>(args...)], has both overloads as candidates. In the
    single-argument overload the parameter then has the type [T&&], and
    [bind_parameter x] is what initialising it from the argument [x]
    gives: [x] itself where it is an rvalue of type [T]; a temporary of
    type [T] holding [x] converted, where [x] has another type with an
    implicit conversion to [T]; [None] where the parameter cannot be
    initialised (an lvalue of type [T], no implicit conversion). The
    conversion is taken to run no code, as the standard conversions of
    scalar types do. *)
Section calls_with_the_payload_type_named.
Context {Arg : Type} (T : payload Arg) (bind_parameter : Arg -> option Arg).

Definition not_viable : fn unit :=
  {| fn_requires := false; fn_noexcept := false; fn_body := None |}.

Definition paren_init_single (a : addr) (x : Arg) : fn unit :=
  match bind_parameter x with
  | Some y => paren_init_deduced T a rvalue y
  | None => not_viable
  end.

Definition brace_init_single (a : addr) (x : Arg) : fn unit :=
  match bind_parameter x with
  | Some y => brace_init_deduced T a rvalue y
  | None => not_viable
  end.

(** Overload resolution. Where the constraint of the variadic overload
    holds it takes the arguments as they are; it is then the better
    match, or, for an rvalue of type [T], the single-argument overload is
    selected and passes on the same argument. Where it does not hold, a
    call with one argument is left with the single-argument overload. *)
Definition paren_init_call (a : addr) (args : list Arg) : option (M unit) :=
  if fn_requires (paren_init T a args) then call (paren_init T a args)
  else match args with
       | [x] => call (paren_init_single a x)
       | _ => None
       end.

Definition brace_init_call (a : addr) (args : list Arg) : option (M unit) :=
  if fn_requires (brace_init T a args) then call (brace_init T a args)
  else match args with
       | [x] => call (brace_init_single a x)
       | _ => None
       end.
End calls_with_the_payload_type_named.
End V2.

(** ** Copying and moving a cell

    The special member functions of a class, and which of them a class
    has. A union declares some itself and the language declares others
    implicitly. *)

Inductive special_member :=
  copy_constructor | move_constructor | copy_assignment | move_assignment.

Definition is_move (m : special_member) : bool :=
  match m with
  | move_constructor | move_assignment => true
  | copy_constructor | copy_assignment => false
  end.

(** What a class declares: a special member is [Some c] when the class
    declares it, defaulted, under the constraint [c]; and whether the class
    declares a destructor. *)
Record declarations := {
  declared : special_member -> option bool;
  declares_destructor : bool
}.

Definition user_declared (d : declarations) (m : special_member) : bool :=
  well_formed (declared d m).

(** The language's rules for the members a class does not declare
    ([class.copy.ctor], [class.copy.assign]): a move member is declared
    implicitly only in a class that declares no copy member, no move
    member and no destructor; a copy member is declared implicitly
    whenever the class does not declare it, and is deleted in a class that
    declares a move member. *)
Definition implicitly_usable (d : declarations) (m : special_member) : bool :=
  negb (user_declared d m) &&
  if is_move m then
    negb (user_declared d copy_constructor || user_declared d copy_assignment
          || user_declared d move_constructor || user_declared d move_assignment
          || declares_destructor d)
  else
    negb (user_declared d move_constructor || user_declared d move_assignment).

(** Operations on a whole cell, and the special members that overload
    resolution can select for them: an rvalue binds to a move member and,
    failing that, to a copy member. *)
Inductive cell_operation := copy_construct | move_construct | copy_assign | move_assign.

Definition candidates (op : cell_operation) : list special_member :=
  match op with
  | copy_construct => [copy_constructor]
  | move_construct => [move_constructor; copy_constructor]
  | copy_assign => [copy_assignment]
  | move_assign => [move_assignment; copy_assignment]
  end.


Section special_members.
Context {Arg : Type} (T : payload Arg).

(** [std::is_trivially_..._v<T>]. The two traits of construction test
    the destruction of [T] as well. *)
Definition trivial (m : special_member) : bool :=
  match m with
  | copy_constructor => is_trivially_copy_constructible T
  | move_constructor => is_trivially_move_constructible T
  | copy_assignment => is_trivially_copy_assignable T
  | move_assignment => is_trivially_move_assignable T
  end.

(** The operation of [T] itself is usable and trivial. *)
Definition member_trivial (m : special_member) : bool :=
  match m with
  | copy_constructor => trivial_copy_constructor T
  | move_constructor => trivial_move_constructor T
  | copy_assignment => trivial_copy_assignment T
  | move_assignment => trivial_move_assignment T
  end.

(** A defaulted copy or move member of a union, declared or implicit, is
    defined as deleted unless the operation of [T] it would call is
    trivial; the destructor of [T] has no part in that. A member that the
    class declares under a constraint is a candidate only where the
    constraint holds. *)
Definition available (d : declarations) (m : special_member) : bool :=
  match declared d m with
  | Some c => c && member_trivial m
  | None => implicitly_usable d m && member_trivial m
  end.

Definition compiles (d : declarations) (op : cell_operation) : bool :=
  existsb (available d) (candidates op).

(** The earlier variant declares the four members, each defaulted and
    constrained by the trait of [T]; it declares destructors. *)
Definition V1_declarations : declarations :=
  {| declared := fun m => Some (trivial m); declares_destructor := true |}.

(** The later variant declares none of the four; it declares
    destructors. *)
Definition V2_declarations : declarations :=
  {| declared := fun _ => None; declares_destructor := true |}.
End special_members.

(** ** Arguments of the earlier variant's constructors *)

(** What the overloads of the earlier variant ask of an argument: whether
    its type, without reference and cv-qualifiers, is one of the two tag
    types, the type of the cell that is constructed (the argument then
    being the cell at [src]), or another type. *)
Inductive argument_kind :=
| tag_default
| tag_value
| the_cell (src : addr) (cat : value_category)
| another.

Definition is_tag (k : argument_kind) : bool :=
  match k with tag_default | tag_value => true | _ => false end.

Definition is_cell (k : argument_kind) : bool :=
  match k with the_cell _ _ => true | _ => false end.

(** The defaulted copy or move constructor of a union copies the object
    representation. *)
Definition copy_cell (src a : addr) : M unit := fun w =>
  match cells w !! src, cells w !! a with
  | Some c, Some _ => (Returned tt, set_cell a c w)
  | _, _ => (Undefined, w)
  end.

(** ** The earlier variant of the header *)

Module V1.

(** [namespace detail]: the concepts test a new-expression at
    [std::declval<void*>()], with no cast. *)
Module detail.
Section concepts.
Context {Arg : Type} (T : payload Arg).

Definition default_constructible : bool := well_formed (new_default T).

Definition constructible_from (args : list Arg) : bool := well_formed (new_paren T args).
End concepts.

(** [not_tag<Ts...>]: none of the types is one of the two tag types. *)
Definition not_tag {Arg : Type} (kind : Arg -> argument_kind) (args : list Arg) : bool :=
  negb (existsb (fun x => is_tag (kind x)) args).
End detail.

(** [union maybe_uninit<T, SELF_DESTRUCT>] *)
Module maybe_uninit.
Section members.
Context {Arg : Type} (T : payload Arg) (SELF_DESTRUCT : bool).
Context (kind : Arg -> argument_kind).

(** The members that are not const-qualified are viable on a non-const
    object only. *)
Definition non_const_member (self : handle) : bool := negb (h_const self).

(** [default_init]: the [static_assert] fails the instantiation where the
    concept does not hold. *)
Definition default_init (self : handle) : fn unit :=
  {| fn_requires := non_const_member self;
     fn_noexcept := is_nothrow_default_constructible T;
     fn_body :=
       match new_default T with
       | Some c => Some (discard (placement_new T c (h_addr self)))
       | None => None
       end |}.

(** [init]: [std::construct_at(std::addressof(m_t), args...)]. *)
Definition init (self : handle) (args : list Arg) : fn unit :=
  {| fn_requires := non_const_member self;
     fn_noexcept := is_nothrow_constructible T args;
     fn_body :=
       match new_paren T args with
       | Some c => Some (discard (placement_new T c (h_addr self)))
       | None => None
       end |}.

(** [maybe_uninit() noexcept {}] *)
Definition ctor (a : addr) : fn unit :=
  {| fn_requires := true; fn_noexcept := true; fn_body := Some (ret tt) |}.

(** [maybe_uninit(default_init_tag_t)] *)
Definition ctor_default_init_tag_t (a : addr) : fn unit :=
  {| fn_requires := true;
     fn_noexcept := is_nothrow_default_constructible T;
     fn_body :=
       if detail.default_constructible T then call (default_init (this a)) else None |}.

(** [maybe_uninit(value_init_tag_t)] *)
Definition ctor_value_init_tag_t (a : addr) : fn unit :=
  {| fn_requires := true;
     fn_noexcept := is_nothrow_default_constructible T;
     fn_body :=
       if detail.default_constructible T then call (init (this a) []) else None |}.

(** [maybe_uninit(Arg&&, Args&&...)], constrained by
    [not std::is_same_v<std::remove_cvref_t<Arg>, maybe_uninit>]. *)
Definition ctor_args (a : addr) (arg : Arg) (args : list Arg) : fn unit :=
  {| fn_requires := negb (is_cell (kind arg));
     fn_noexcept := is_nothrow_constructible T (arg :: args);
     fn_body :=
       if detail.constructible_from T (arg :: args)
       then call (init (this a) (arg :: args)) else None |}.

(** [maybe_uninit(maybe_uninit const&)] and [maybe_uninit(maybe_uninit&&)],
    defaulted under their constraints: the one that overload resolution
    finds for an argument of the value category [cat]. *)
Definition ctor_copy_or_move (a src : addr) (cat : value_category) : fn unit :=
  {| fn_requires :=
       compiles T (V1_declarations T)
         (match cat with lvalue => copy_construct | rvalue => move_construct end);
     fn_noexcept := true;
     fn_body := Some (copy_cell src a) |}.

(** Overload resolution for [maybe_uninit<T, SELF_DESTRUCT>(arg, args...)].
    For a single tag the constructor of that tag, which is no template,
    is preferred to the constructor template; for a cell of the same type
    the template is not viable; the template takes every other call. *)
Definition construct (a : addr) (arg : Arg) (args : list Arg) : option (M unit) :=
  match kind arg, args with
  | tag_default, [] => call (ctor_default_init_tag_t a)
  | tag_value, [] => call (ctor_value_init_tag_t a)
  | the_cell src cat, [] => call (ctor_copy_or_move a src cat)
  | _, _ => call (ctor_args a arg args)
  end.

(** [ptr], const and non-const. *)
Definition ptr (self : handle) : fn pointer :=
  {| fn_requires := true; fn_noexcept := true;
     fn_body := Some (ret {| p_addr := h_addr self;
                             p_const := h_const self || is_const T |}) |}.

(** [assume_init], for [&], [const&] and [&&]; a const rvalue binds to
    the [const&] overload. *)
Definition assume_init (self : handle) : fn reference :=
  {| fn_requires := true; fn_noexcept := true;
     fn_body := Some (ret {| r_addr := h_addr self;
                             r_const := h_const self || is_const T;
                             r_cat := if h_const self then lvalue else h_cat self |}) |}.

(** [destruct] *)
Definition destruct (self : handle) : fn unit :=
  {| fn_requires := non_const_member self;
     fn_noexcept := is_nothrow_destructible T;
     fn_body :=
       if is_destructible T then
         if is_trivially_destructible T
         then Some (destroy_at T (h_addr self))
         else Some (ret tt)
       else None |}.

(** [~maybe_uninit()]: the defaulted one is selected for a trivially
    destructible [T]; the other one calls [destruct] under
    [SELF_DESTRUCT]. *)
Definition dtor (a : addr) : fn unit :=
  {| fn_requires := true;
     fn_noexcept := is_nothrow_destructible T;
     fn_body :=
       if is_trivially_destructible T then Some (ret tt)
       else if SELF_DESTRUCT then
         if is_destructible T then call (destruct (this a)) else None
       else Some (ret tt) |}.
End members.
End maybe_uninit.

(** The free functions; the cell they return is built in place at [a]. *)
Section free_functions.
Context {Arg : Type} (T : payload Arg) (SELF_DESTRUCT : bool).
Context (kind : Arg -> argument_kind).

Definition uninit (a : addr) : fn unit :=
  {| fn_requires := true; fn_noexcept := true;
     fn_body := call (maybe_uninit.ctor a) |}.

Definition default_init (a : addr) : fn unit :=
  {| fn_requires := true;
     fn_noexcept := is_nothrow_default_constructible T;
     fn_body :=
       if detail.default_constructible T
       then call (maybe_uninit.ctor_default_init_tag_t T a) else None |}.

(** [init<T>()] *)
Definition init_value (a : addr) : fn unit :=
  {| fn_requires := true;
     fn_noexcept := is_nothrow_default_constructible T;
     fn_body :=
       if detail.default_constructible T
       then call (maybe_uninit.ctor_value_init_tag_t T a) else None |}.

(** [init<T>(arg, args...)]: two [static_assert]s, then
    [maybe_uninit<value_type, SELF_DESTRUCT>(arg, args...)]. *)
Definition init (a : addr) (arg : Arg) (args : list Arg) : fn unit :=
  {| fn_requires := true;
     fn_noexcept := is_nothrow_constructible T (arg :: args);
     fn_body :=
       if detail.not_tag kind (arg :: args) then
         if detail.constructible_from T (arg :: args)
         then maybe_uninit.construct T kind a arg args else None
       else None |}.

(** [init(T&& t)] and [init_auto(T&& t)]: the payload type is the type of
    [t] without reference and cv-qualifiers, here [T]; the cell that
    [init_auto] returns has the [SELF_DESTRUCT] flag set, which shows at
    the end of its lifetime. *)
Definition init_deduced (a : addr) (t : Arg) : fn unit :=
  {| fn_requires := true;
     fn_noexcept := is_nothrow_constructible T [t];
     fn_body :=
       if detail.not_tag kind [t] then
         if detail.constructible_from T [t]
         then maybe_uninit.construct T kind a t [] else None
       else None |}.

Definition init_auto (a : addr) (t : Arg) : fn unit :=
  {| fn_requires := true;
     fn_noexcept := is_nothrow_constructible T [t];
     fn_body :=
       if detail.not_tag kind [t] then
         if detail.constructible_from T [t]
         then maybe_uninit.construct T kind a t [] else None
       else None |}.
End free_functions.
End V1.

(** A sufficient condition for [std::is_trivially_copyable_v<T>]: the
    four copy and move operations of [T] and its destructor are trivial.
    The value of an object of such a type is the value of its bytes. *)
Definition is_trivially_copyable {Arg} (T : payload Arg) : bool :=
  is_trivially_copy_constructible T && is_trivially_move_constructible T
  && is_trivially_copy_assignable T && is_trivially_move_assignable T
  && is_trivially_destructible T.

(** ** Byte spans *)

(** Assigning the bytes [bs] to a span from its start, as
    [std::ranges::copy] would: refused by the compiler through a span of
    const bytes, undefined beyond the extent. Once every byte of the
    storage is assigned its value is determinate. *)
Definition span_write (s : span) (bs : list byte) : option (M unit) :=
  if s_const s then None
  else Some (fun w =>
    match cells w !! s_addr s with
    | None => (Undefined, w)
    | Some cl =>
      if Nat.leb (length bs) (s_extent s) then
        (Returned tt,
         set_cell (s_addr s)
           {| storage := bs ++ drop (length bs) (storage cl); live := live cl;
              determinate := determinate cl || Nat.leb (length (storage cl)) (length bs) |} w)
      else (Undefined, w)
    end).

(** ** Payload types of the examples *)

(** Built-in integer types: size in bytes and signedness. *)
Record int_type := { int_bytes : positive; int_signed : bool }.

Definition int_width (t : int_type) : Z := Zpos (8 * int_bytes t).

Definition int_min (t : int_type) : Z :=
  if int_signed t then (- 2 ^ (int_width t - 1))%Z else 0%Z.
Definition int_max (t : int_type) : Z :=
  if int_signed t then (2 ^ (int_width t - 1) - 1)%Z else (2 ^ int_width t - 1)%Z.

Definition in_range (t : int_type) (v : Z) : bool :=
  Z.leb (int_min t) v && Z.leb v (int_max t).

(** Every value of [u] is a value of [t]: converting from [u] to [t] is
    not a narrowing conversion. *)
Definition fits (u t : int_type) : bool :=
  Z.leb (int_min t) (int_min u) && Z.leb (int_max u) (int_max t).

(** An argument expression of integer type that is not a constant
    expression, as a forwarded function parameter is. *)
Record int_arg := { arg_type : int_type; arg_value : Z }.

Inductive endian := little | big.

Definition int_rep (t : int_type) : Type := @word.rep (int_width t) (Naive.word (int_width t)).

Definition int_value (t : int_type) (x : int_rep t) : Z :=
  if int_signed t then word.signed x else word.unsigned x.

(** Conversion of the integer [v] to the type [t]: modulo 2^width. *)
Definition convert (t : int_type) (v : Z) : int_rep t := word.of_Z v.

Definition byte_order (e : endian) (bs : list byte) : list byte :=
  match e with little => bs | big => rev bs end.

Definition int_encode (e : endian) (t : int_type) (x : int_rep t) : list byte :=
  byte_order e (le_split (Pos.to_nat (int_bytes t)) (word.unsigned x)).

Definition int_decode (e : endian) (t : int_type) (bs : list byte) : option (int_rep t) :=
  if Nat.eqb (length bs) (Pos.to_nat (int_bytes t))
  then Some (word.of_Z (le_combine (byte_order e bs)))
  else None.

Definition noexcept_value {A} (v : option A) : ctor A :=
  {| ctor_noexcept := true; ctor_run := Returned v |}.

(** The integer type [t] as a payload type. Default initialisation
    performs nothing; empty parentheses or braces give zero; one integer
    argument is converted, and braces refuse a narrowing conversion. *)
Definition int_payload (e : endian) (t : int_type) : payload int_arg :=
  {| obj := int_rep t;
     size_of := Pos.to_nat (int_bytes t);
     is_const := false;
     encode := int_encode e t;
     decode := int_decode e t;
     new_default := Some (noexcept_value None);
     new_paren := fun args =>
       match args with
       | [] => Some (noexcept_value (Some (convert t 0)))
       | [x] => Some (noexcept_value (Some (convert t (arg_value x))))
       | _ => None
       end;
     new_brace := fun args =>
       match args with
       | [] => Some (noexcept_value (Some (convert t 0)))
       | [x] =>
         if fits (arg_type x) t
         then Some (noexcept_value (Some (convert t (arg_value x))))
         else None
       | _ => None
       end;
     destructor := fun _ => Returned tt;
     trivial_copy_constructor := true;
     trivial_move_constructor := true;
     trivial_copy_assignment := true;
     trivial_move_assignment := true;
     is_destructible := true;
     is_trivially_destructible := true;
     is_nothrow_destructible := true;
     is_trivially_copy_constructible := true;
     is_trivially_move_constructible := true;
     is_trivially_copy_assignable := true;
     is_trivially_move_assignable := true;
     is_nothrow_default_constructible := true;
     is_nothrow_constructible := fun args =>
       match args with [] | [_] => true | _ => false end |}.

(** Initialising a parameter of type [t&&] from an argument of an integer
    type: the integral conversion to [t] makes a temporary, to which the
    parameter binds. (An argument of the type [t] itself binds only as an
    rvalue; the variadic overloads accept it in either case.) *)
Definition int_bind_parameter (t : int_type) (x : int_arg) : option int_arg :=
  Some {| arg_type := t; arg_value := int_value t (convert t (arg_value x)) |}.

Definition int32_t : int_type := {| int_bytes := 4; int_signed := true |}.
Definition int64_t : int_type := {| int_bytes := 8; int_signed := true |}.
Definition uint32_t : int_type := {| int_bytes := 4; int_signed := false |}.
Definition int : int_type := int32_t.

(** [T const] for a payload type [T]: no assignment. *)
Definition add_const {Arg} (T : payload Arg) : payload Arg :=
  {| obj := obj T;
     size_of := size_of T;
     is_const := true;
     encode := encode T;
     decode := decode T;
     new_default := new_default T;
     new_paren := new_paren T;
     new_brace := new_brace T;
     destructor := destructor T;
     trivial_copy_constructor := trivial_copy_constructor T;
     trivial_move_constructor := trivial_move_constructor T;
     trivial_copy_assignment := false;
     trivial_move_assignment := false;
     is_destructible := is_destructible T;
     is_trivially_destructible := is_trivially_destructible T;
     is_nothrow_destructible := is_nothrow_destructible T;
     is_trivially_copy_constructible := is_trivially_copy_constructible T;
     is_trivially_move_constructible := is_trivially_move_constructible T;
     is_trivially_copy_assignable := false;
     is_trivially_move_assignable := false;
     is_nothrow_default_constructible := is_nothrow_default_constructible T;
     is_nothrow_constructible := is_nothrow_constructible T |}.

(** The type of the README's examples,
    [struct NonTrivial { NonTrivial() = delete; NonTrivial(int) {}
    ~NonTrivial() { /* side effect */ } };], here with an [int] data member
    that keeps the constructor's argument, so that two values can be told
    apart. Its side effect is the [destructor_call] event. Its copy and
    move operations are the implicit ones and trivial; its destructor is
    not, which the traits [std::is_trivially_copy_constructible_v] and
    [std::is_trivially_move_constructible_v] report as false. *)
Definition NonTrivial (e : endian) : payload int_arg :=
  {| obj := int_rep int;
     size_of := 4;
     is_const := false;
     encode := int_encode e int;
     decode := int_decode e int;
     new_default := None;
     new_paren := fun args =>
       match args with
       | [x] => Some {| ctor_noexcept := false;
                        ctor_run := Returned (Some (convert int (arg_value x))) |}
       | _ => None
       end;
     new_brace := fun args =>
       match args with
       | [x] =>
         if fits (arg_type x) int
         then Some {| ctor_noexcept := false;
                      ctor_run := Returned (Some (convert int (arg_value x))) |}
         else None
       | _ => None
       end;
     destructor := fun _ => Returned tt;
     trivial_copy_constructor := true;
     trivial_move_constructor := true;
     trivial_copy_assignment := true;
     trivial_move_assignment := true;
     is_destructible := true;
     is_trivially_destructible := false;
     is_nothrow_destructible := true;
     is_trivially_copy_constructible := false;
     is_trivially_move_constructible := false;
     is_trivially_copy_assignable := true;
     is_trivially_move_assignable := true;
     is_nothrow_default_constructible := false;
     is_nothrow_constructible := fun _ => false |}.

(** A payload type whose copy and move operations are trivial as [f]
    says, the traits agreeing, and all else as in [T]. *)
Definition with_special_members {Arg} (T : payload Arg) (f : special_member -> bool)
  : payload Arg :=
  {| obj := obj T;
     size_of := size_of T;
     is_const := is_const T;
     encode := encode T;
     decode := decode T;
     new_default := new_default T;
     new_paren := new_paren T;
     new_brace := new_brace T;
     destructor := destructor T;
     trivial_copy_constructor := f copy_constructor;
     trivial_move_constructor := f move_constructor;
     trivial_copy_assignment := f copy_assignment;
     trivial_move_assignment := f move_assignment;
     is_destructible := is_destructible T;
     is_trivially_destructible := is_trivially_destructible T;
     is_nothrow_destructible := is_nothrow_destructible T;
     is_trivially_copy_constructible := f copy_constructor;
     is_trivially_move_constructible := f move_constructor;
     is_trivially_copy_assignable := f copy_assignment;
     is_trivially_move_assignable := f move_assignment;
     is_nothrow_default_constructible := is_nothrow_default_constructible T;
     is_nothrow_constructible := is_nothrow_constructible T |}.

(** [struct move_only { int x; move_only(move_only&&) = default;
    move_only& operator=(move_only&&) = default; };]: trivial moves, and
    copies deleted. *)
Definition move_only : payload int_arg :=
  with_special_members (int_payload little int) is_move.

(** [struct copy_first { int x; copy_first(copy_first const&) = default;
    copy_first(copy_first&&) { ... } ... };]: trivial copies, and moves
    that are user-provided. *)
Definition copy_first : payload int_arg :=
  with_special_members (int_payload little int) (fun m => negb (is_move m)).

(** An integer literal of type [int], e.g. [42]. *)
Definition int_literal (v : Z) : int_arg := {| arg_type := int; arg_value := v |}.

(** A world with one cell at address 1 holding four bytes of zero and no
    object. *)
Definition cell0 : cell :=
  {| storage := [Byte.x00; Byte.x00; Byte.x00; Byte.x00]; live := false;
     determinate := false |}.

Definition world0 : world := {| cells := {[ 1%N := cell0 ]}; trace := [] |}.

(** The world after [default_init] on that cell for an integer payload:
    an integer lives there and its value is indeterminate. *)
Definition cell_default : cell :=
  {| storage := [Byte.x00; Byte.x00; Byte.x00; Byte.x00]; live := true;
     determinate := false |}.

Definition world_default : world := {| cells := {[ 1%N := cell_default ]}; trace := [] |}.

(** The world after the cell at address 1 was given an object of value 42
    of the type [NonTrivial]. *)
Definition world42 (e : endian) : world :=
  set_cell 1%N {| storage := int_encode e int (convert int 42); live := true;
                  determinate := true |} world0.

(** A block that declares a cell of the earlier variant, constructs its
    value from [args], calls [destruct] on it when [explicit] is set, and
    ends: [{ maybe_uninit<T, SELF_DESTRUCT> c; c.init(args...);
    c.destruct(); }]. [None] when the block does not compile. *)
Definition V1_scope {Arg} (T : payload Arg) (SELF_DESTRUCT : bool) (a : addr)
    (args : list Arg) (explicit : bool) : option (M unit) :=
  c ← call (V1.maybe_uninit.ctor a);
  i ← call (V1.maybe_uninit.init T (this a) args);
  d ← (if explicit then call (V1.maybe_uninit.destruct T (this a)) else Some (ret tt));
  t ← call (V1.maybe_uninit.dtor T SELF_DESTRUCT a);
  Some (let! _ := c in let! _ := i in let! _ := d in t).

(** Two calls are accepted or refused together by the compiler and, when
    accepted, end in the same way in the same world. *)
Definition same_behaviour {A} (p q : option (M A)) : Prop :=
  match p, q with
  | Some m, Some n => forall w, m w = n w
  | None, None => True
  | _, _ => False
  end.

(** [p] followed by [q]. *)
Definition and_then {A B} (p : option (M A)) (q : option (M B)) : option (M B) :=
  m ← p; n ← q; Some (let! _ := m in n).

(** The block [V1_scope] runs from [w] to its end and the destructor of
    the payload ran exactly once in it. *)
Definition destroyed_exactly_once {Arg} (T : payload Arg) (a : addr) (args : list Arg)
    (explicit : bool) (w : world) : Prop :=
  exists m w',
    V1_scope T true a args explicit = Some m /\
    m w = (Returned tt, w') /\
    destructor_calls a w' = S (destructor_calls a w).

(** The construction tags, with the arguments that go with them. *)
Inductive init_tag (Arg : Type) :=
| default_init_t
| paren_init_t (args : list Arg)
| brace_init_t (args : list Arg).
Arguments default_init_t {Arg}.
Arguments paren_init_t {Arg} args.
Arguments brace_init_t {Arg} args.

Section strategies.
Context {Arg : Type} (T : payload Arg).

(** The initialisation form of [T] that a tag selects. *)
Definition form (tag : init_tag Arg) : option (ctor (obj T)) :=
  match tag with
  | default_init_t => new_default T
  | paren_init_t args => new_paren T args
  | brace_init_t args => new_brace T args
  end.

(** The later variant's three entry points for each tag: the member
    function, the constructor, the free function that takes the
    arguments as a pack. *)
Definition V2_member (self : handle) (tag : init_tag Arg) : fn reference :=
  match tag with
  | default_init_t => V2.maybe_uninit.default_init T self
  | paren_init_t args => V2.maybe_uninit.paren_init T self args
  | brace_init_t args => V2.maybe_uninit.brace_init T self args
  end.

Definition V2_constructor (a : addr) (tag : init_tag Arg) : fn unit :=
  match tag with
  | default_init_t => V2.maybe_uninit.ctor_default_init_t T a
  | paren_init_t args => V2.maybe_uninit.ctor_paren_init_t T a args
  | brace_init_t args => V2.maybe_uninit.ctor_brace_init_t T a args
  end.

Definition V2_free_function (a : addr) (tag : init_tag Arg) : fn unit :=
  match tag with
  | default_init_t => V2.default_init T a
  | paren_init_t args => V2.paren_init T a args
  | brace_init_t args => V2.brace_init T a args
  end.

(** Whether the form that a tag selects is [noexcept]. *)
Definition form_noexcept (tag : init_tag Arg) : bool :=
  match tag with
  | default_init_t => V2.detail.nothrow_default_constructible T
  | paren_init_t args => V2.detail.nothrow_paren_constructible_from T args
  | brace_init_t args => V2.detail.nothrow_brace_constructible_from T args
  end.
End strategies.

(** What a function hands back, seen as a reference: a function that
    returns [void] hands back none. *)
Class result (R : Type) := reference_of : R -> option reference.
#[export] Instance result_reference : result reference := Some.
#[export] Instance result_void : result unit := fun _ => None.

(** The call [f] compiles, completes from [w], and returns a reference to
    the cell at [a], where an object of value [v] now lives. *)
Definition returns_reference_to {Arg} (T : payload Arg) {R} `{result R}
    (f : fn R) (a : addr) (v : obj T) (w : world) : Prop :=
  exists m x w' r,
    call f = Some m /\
    m w = (Returned x, w') /\
    reference_of x = Some r /\
    r_addr r = a /\
    holds T w' a v /\
    load T w' r = Some v.

(** The two-step form of construction: an uninitialized cell is created
    at [a], then the member function of the strategy is called on it. *)
Definition two_steps {Arg} (T : payload Arg) (a : addr) (tag : init_tag Arg)
  : option (M unit) :=
  and_then (call (V2.maybe_uninit.ctor a)) (discard <$> call (V2_member T (this a) tag)).

(** Unfolds the calls of the later variant down to the concepts and the
    new-expression. *)
Ltac unfold_calls :=
  repeat (unfold call;
          cbn [fn_requires fn_noexcept fn_body
               V2.maybe_uninit.ctor V2.maybe_uninit.ctor_default_init_t
               V2.maybe_uninit.ctor_paren_init_t V2.maybe_uninit.ctor_brace_init_t
               V2.maybe_uninit.default_init V2.maybe_uninit.paren_init
               V2.maybe_uninit.brace_init
               V2.default_init V2.paren_init V2.brace_init
               V2.paren_init_deduced V2.brace_init_deduced]).

(** What the traits and the operations of [T] have to do with each other:
    where a trait holds, the operation of [T] is trivial. *)
Definition special_members_ok {Arg} (T : payload Arg) : Prop :=
  forall m, trivial T m = true -> member_trivial T m = true.



(** The handle of a const rvalue cell, as in
    [std::move(std::as_const(c)).bytes()]. *)
Definition const_rvalue (a : addr) : handle :=
  {| h_addr := a; h_const := true; h_cat := rvalue |}.

(** The bytes of the README's example, lowest address first. *)
Definition pattern : list byte := [Byte.x67; Byte.x45; Byte.x23; Byte.x01].

(** [auto s = c.bytes(); std::ranges::copy(bs, s.begin()); return c.ref();]
    followed by a read through the reference. [None] when the block does
    not compile. *)
Definition write_bytes_then_read {Arg} (T : payload Arg) (self : handle) (bs : list byte)
    (w : world) : option (outcome (option (obj T))) :=
  b ← call (V2.maybe_uninit.bytes T self);
  r ← call (V2.maybe_uninit.ref T self);
  match b w with
  | (Returned s, w1) =>
    wr ← span_write s bs;
    Some (match (let! _ := wr in r) w1 with
          | (Returned x, w2) => Returned (load T w2 x)
          | (Thrown e, _) => Thrown e
          | (Terminated, _) => Terminated
          | (Undefined, _) => Undefined
          end)
  | (Thrown e, _) => Some (Thrown e)
  | (Terminated, _) => Some Terminated
  | (Undefined, _) => Some Undefined
  end.

(** The cell at [a] consists of [sizeof(T)] bytes of storage. *)
Definition storage_fits {Arg} (T : payload Arg) (w : world) (a : addr) : Prop :=
  exists cl, cells w !! a = Some cl /\ length (storage cl) = size_of T.

(** ** Sequences of operations on one cell *)

(** The member functions of the later variant, as operations on a cell. *)
Inductive operation (Arg : Type) :=
| op_construct (tag : init_tag Arg)
| op_destroy
| op_ptr
| op_ref
| op_bytes.
Arguments op_construct {Arg} tag.
Arguments op_destroy {Arg}.
Arguments op_ptr {Arg}.
Arguments op_ref {Arg}.
Arguments op_bytes {Arg}.

(** One call, its result dropped; [None] when it does not compile. *)
Definition V2_step {Arg} (T : payload Arg) (self : handle) (op : operation Arg)
  : option (M unit) :=
  match op with
  | op_construct tag => discard <$> call (V2_member T self tag)
  | op_destroy => call (V2.maybe_uninit.destroy T self)
  | op_ptr => discard <$> call (V2.maybe_uninit.ptr T self)
  | op_ref => discard <$> call (V2.maybe_uninit.ref T self)
  | op_bytes => discard <$> call (V2.maybe_uninit.bytes T self)
  end.

(** The calls of a list, one after the other. *)
Fixpoint V2_run {Arg} (T : payload Arg) (self : handle) (ops : list (operation Arg))
  : option (M unit) :=
  match ops with
  | [] => Some (ret tt)
  | op :: rest => and_then (V2_step T self op) (V2_run T self rest)
  end.

Definition is_destroy {Arg} (op : operation Arg) : bool :=
  match op with op_destroy => true | _ => false end.

(** The member functions of the earlier variant and the end of the cell's
    lifetime, as operations on a cell. *)
Inductive V1_operation (Arg : Type) :=
| v1_default_init
| v1_init (args : list Arg)
| v1_destruct
| v1_ptr
| v1_assume_init
| v1_teardown (SELF_DESTRUCT : bool).
Arguments v1_default_init {Arg}.
Arguments v1_init {Arg} args.
Arguments v1_destruct {Arg}.
Arguments v1_ptr {Arg}.
Arguments v1_assume_init {Arg}.
Arguments v1_teardown {Arg} SELF_DESTRUCT.

Definition V1_step {Arg} (T : payload Arg) (self : handle) (op : V1_operation Arg)
  : option (M unit) :=
  match op with
  | v1_default_init => call (V1.maybe_uninit.default_init T self)
  | v1_init args => call (V1.maybe_uninit.init T self args)
  | v1_destruct => call (V1.maybe_uninit.destruct T self)
  | v1_ptr => discard <$> call (V1.maybe_uninit.ptr T self)
  | v1_assume_init => discard <$> call (V1.maybe_uninit.assume_init T self)
  | v1_teardown flag => call (V1.maybe_uninit.dtor T flag (h_addr self))
  end.

Fixpoint V1_run {Arg} (T : payload Arg) (self : handle) (ops : list (V1_operation Arg))
  : option (M unit) :=
  match ops with
  | [] => Some (ret tt)
  | op :: rest => and_then (V1_step T self op) (V1_run T self rest)
  end.

(** A computation keeps the property [P] of worlds. *)
Definition keeps {A} (P : world -> Prop) (m : M A) : Prop :=
  forall w, P w -> P (snd (m w)).

(** Seen from [w0], only the contents of the cell at [a] have changed: the
    same cells exist and every other cell is as it was. *)
Definition only_cell_changed (a : addr) (w0 w : world) : Prop :=
  dom (cells w) = dom (cells w0) /\
  forall b, b <> a -> cells w !! b = cells w0 !! b.

(** ** The deducing free functions of the earlier variant *)

(** [{ auto c = init_auto(t); }]: the cell is made and its lifetime
    ends. *)
Definition V1_init_auto_block {Arg} (T : payload Arg) (kind : Arg -> argument_kind)
    (a : addr) (t : Arg) : option (M unit) :=
  and_then (call (V1.init_auto T kind a t)) (call (V1.maybe_uninit.dtor T true a)).

(** Integer arguments are neither tags nor cells. *)
Definition int_kind (x : int_arg) : argument_kind := another.

(** The earlier variant's two-step form: an uninitialized cell is created
    at [a], then a member function is called on it. *)
Definition V1_two_steps (a : addr) (member : fn unit) : option (M unit) :=
  and_then (call (V1.maybe_uninit.ctor a)) (call member).

(** ** Reading through the byte view *)

(** The bytes seen through a span, as [std::ranges::copy] from it would
    give them; reading is allowed through a span of const bytes too. The
    bytes of an indeterminate value are nothing the program may depend
    on. *)
Definition span_read (s : span) : M (list byte) := fun w =>
  match cells w !! s_addr s with
  | None => (Undefined, w)
  | Some cl =>
    if determinate cl then (Returned (take (s_extent s) (storage cl)), w)
    else (Undefined, w)
  end.

(** [auto s = c.bytes();] followed by a read of all of [s]. *)
Definition read_bytes {Arg} (T : payload Arg) (self : handle) : option (M (list byte)) :=
  b ← call (V2.maybe_uninit.bytes T self);
  Some (let! s := b in span_read s).

(** A sequence of calls on a cell: construct from 42, destroy, construct
    from 7, take the pointer, take the byte view. *)
Definition example_ops : list (operation int_arg) :=
  [op_construct (paren_init_t [int_literal 42]); op_destroy;
   op_construct (paren_init_t [int_literal 7]); op_ptr; op_bytes].

(** A payload type whose constructor checks its argument,
    [struct Checked { int x; explicit Checked(int v) : x(v)
    { if (v < 0) throw 1; } ~Checked() { /* side effect */ } };]. *)
Definition Checked (e : endian) : payload int_arg :=
  {| obj := int_rep int;
     size_of := 4;
     is_const := false;
     encode := int_encode e int;
     decode := int_decode e int;
     new_default := None;
     new_paren := fun args =>
       match args with
       | [x] => Some {| ctor_noexcept := false;
                        ctor_run := if Z.ltb (arg_value x) 0 then Thrown 1
                                    else Returned (Some (convert int (arg_value x))) |}
       | _ => None
       end;
     new_brace := fun args =>
       match args with
       | [x] =>
         if fits (arg_type x) int
         then Some {| ctor_noexcept := false;
                      ctor_run := if Z.ltb (arg_value x) 0 then Thrown 1
                                  else Returned (Some (convert int (arg_value x))) |}
         else None
       | _ => None
       end;
     destructor := fun _ => Returned tt;
     trivial_copy_constructor := true;
     trivial_move_constructor := true;
     trivial_copy_assignment := true;
     trivial_move_assignment := true;
     is_destructible := true;
     is_trivially_destructible := false;
     is_nothrow_destructible := true;
     is_trivially_copy_constructible := false;
     is_trivially_move_constructible := false;
     is_trivially_copy_assignable := true;
     is_trivially_move_assignable := true;
     is_nothrow_default_constructible := false;
     is_nothrow_constructible := fun _ => false |}.

(** [struct Loud { int x; Loud(int v) noexcept : x(v) {}
    ~Loud() noexcept(false) { /* side effect */ } };]: a constructor that
    cannot throw and a destructor that is allowed to. *)
Definition Loud (e : endian) : payload int_arg :=
  {| obj := int_rep int;
     size_of := 4;
     is_const := false;
     encode := int_encode e int;
     decode := int_decode e int;
     new_default := None;
     new_paren := fun args =>
       match args with
       | [x] => Some (noexcept_value (Some (convert int (arg_value x))))
       | _ => None
       end;
     new_brace := fun args =>
       match args with
       | [x] =>
         if fits (arg_type x) int
         then Some (noexcept_value (Some (convert int (arg_value x))))
         else None
       | _ => None
       end;
     destructor := fun _ => Returned tt;
     trivial_copy_constructor := true;
     trivial_move_constructor := true;
     trivial_copy_assignment := true;
     trivial_move_assignment := true;
     is_destructible := true;
     is_trivially_destructible := false;
     is_nothrow_destructible := false;
     is_trivially_copy_constructible := false;
     is_trivially_move_constructible := false;
     is_trivially_copy_assignable := true;
     is_trivially_move_assignable := true;
     is_nothrow_default_constructible := false;
     is_nothrow_constructible := fun _ => false |}.

(** What [std::is_nothrow_constructible_v<T, Args...>] and
    [std::is_nothrow_default_constructible_v<T>] report: that the
    expression [T(args...)], respectively [T()], is [noexcept], the
    destruction of the object it creates included. *)
Definition std_nothrow_traits_ok {Arg} (T : payload Arg) : Prop :=
  (forall args, is_nothrow_constructible T args =
                V2.detail.nothrow T (new_paren T args) && is_nothrow_destructible T) /\
  is_nothrow_default_constructible T = is_nothrow_constructible T [].

(** C10 as it is stated, for one entry point [f] and the constructor form
    [o] of [T] that it uses: [f] is [noexcept] exactly when the form is. *)
Definition noexcept_as_the_form {Arg} (T : payload Arg) {A} (f : fn A)
    (o : option (ctor (obj T))) : Prop :=
  fn_noexcept f = V2.detail.nothrow T o.

(** A sequence of calls on a cell of the earlier variant: construct from
    42, destruct, take the pointer, end the lifetime with [SELF_DESTRUCT]
    set. *)
Definition example_V1_ops : list (V1_operation int_arg) :=
  [v1_init [int_literal 42]; v1_destruct; v1_ptr; v1_teardown true].

(** A cell whose four bytes are those of the integer 42, lowest first, and
    the world that has it at address 1. *)
Definition cell42l : cell :=
  {| storage := [Byte.x2a; Byte.x00; Byte.x00; Byte.x00]; live := true;
     determinate := true |}.

Definition world42l : world := {| cells := {[ 1%N := cell42l ]}; trace := [] |}.

(** * Properties *)

(** ** The machine *)

Lemma enforce_idem {A} (b : bool) (o : outcome A) : enforce b (enforce b o) = enforce b o.
Proof. destruct o, b; reflexivity. Qed.

Lemma noexcept_idem {A} (b : bool) (m : M A) (w : world) :
  noexcept b (noexcept b m) w = noexcept b m w.
Proof.
  unfold noexcept. destruct (m w) as [o w']. now rewrite enforce_idem.
Qed.

Lemma noexcept_returned {A} (b : bool) (m : M A) (w w' : world) (a : A) :
  m w = (Returned a, w') -> noexcept b m w = (Returned a, w').
Proof. unfold noexcept. now intros ->. Qed.

Lemma noexcept_discard {A} (b : bool) (m : M A) (w : world) :
  noexcept b (discard m) w = discard (noexcept b m) w.
Proof.
  unfold noexcept, discard, bind, ret.
  destruct (m w) as [[x|e| |] w']; destruct b; reflexivity.
Qed.

Lemma destructor_calls_set_cell a b c w :
  destructor_calls a (set_cell b c w) = destructor_calls a w.
Proof. reflexivity. Qed.

Lemma destructor_calls_log a w :
  destructor_calls a (log (destructor_call a) w) = S (destructor_calls a w).
Proof.
  unfold destructor_calls, log; simpl.
  rewrite List.filter_app, length_app; simpl.
  rewrite N.eqb_refl; simpl. lia.
Qed.

Section placement.
Context {Arg : Type} (T : payload Arg).

Lemma placement_new_value (c : ctor (obj T)) (a : addr) (w : world) (cl : cell) (v : obj T) :
  cells w !! a = Some cl ->
  enforce (ctor_noexcept c) (ctor_run c) = Returned (Some v) ->
  placement_new T c a w =
    (Returned {| p_addr := a; p_const := false |},
     set_cell a {| storage := encode T v; live := true; determinate := true |} w).
Proof.
  intros Hc Hr. unfold placement_new. now rewrite Hc, Hr.
Qed.

Lemma initialise_Some (o : option (ctor (obj T))) (r : outcome (option (obj T))) :
  initialise T o = Some r ->
  exists c, o = Some c /\ enforce (ctor_noexcept c) (ctor_run c) = r.
Proof.
  destruct o as [c|]; simpl; [|discriminate].
  intros [= <-]. now exists c.
Qed.

Lemma holds_set_cell (a : addr) (w : world) (v : obj T) :
  decode T (encode T v) = Some v ->
  holds T (set_cell a {| storage := encode T v; live := true; determinate := true |} w) a v.
Proof.
  intros Hd. eexists. split; [apply lookup_insert_eq|]. now repeat split.
Qed.

Lemma load_set_cell (r : reference) (w : world) (v : obj T) :
  decode T (encode T v) = Some v ->
  load T (set_cell (r_addr r) {| storage := encode T v; live := true;
                                 determinate := true |} w) r = Some v.
Proof.
  intros Hd. unfold load, set_cell; simpl. now rewrite lookup_insert_eq.
Qed.

Lemma destroy_at_trivial (a : addr) (w : world) (cl : cell) :
  cells w !! a = Some cl ->
  is_trivially_destructible T = true ->
  destroy_at T a w = (Returned tt, w).
Proof. intros Hc Ht. unfold destroy_at. now rewrite Hc, Ht. Qed.

Lemma destroy_at_live (a : addr) (w : world) (cl : cell) (v : obj T) :
  cells w !! a = Some cl ->
  live cl = true ->
  decode T (storage cl) = Some v ->
  is_trivially_destructible T = false ->
  destroy_at T a w =
    (enforce (is_nothrow_destructible T) (destructor T v),
     log (destructor_call a) (set_cell a {| storage := storage cl; live := false; determinate := determinate cl |} w)).
Proof.
  intros Hc Hl Hd Ht. unfold destroy_at. now rewrite Hc, Ht, Hl, Hd.
Qed.
End placement.

(** ** The storage of a cell *)

Section storage.
Context {Arg : Type} (T : payload Arg) (HT : payload_ok T).

(** Construction, destruction and writes through the byte view leave the
    cell with its [sizeof(T)] bytes: the cell has nothing else to grow
    or shrink. *)
Lemma placement_new_storage_fits (c : ctor (obj T)) (a : addr) (w : world) :
  storage_fits T w a -> storage_fits T (snd (placement_new T c a w)) a.
Proof.
  intros (cl & Hc & Hl). unfold placement_new. rewrite Hc.
  destruct (enforce (ctor_noexcept c) (ctor_run c)) as [[v|]|e| |]; simpl;
    try (exists cl; now split);
    (eexists; split; [apply lookup_insert_eq|]; simpl; auto).
  apply (encode_length T HT).
Qed.

Lemma destroy_at_storage_fits (a : addr) (w : world) :
  storage_fits T w a -> storage_fits T (snd (destroy_at T a w)) a.
Proof.
  intros (cl & Hc & Hl). unfold destroy_at. rewrite Hc.
  destruct (is_trivially_destructible T); simpl; [exists cl; now split|].
  destruct (live cl); simpl; [|exists cl; now split].
  destruct (decode T (storage cl)); simpl; [|exists cl; now split].
  eexists; split; [apply lookup_insert_eq|]. exact Hl.
Qed.

Lemma span_write_storage_fits (s : span) (bs : list byte) (m : M unit) (w : world) :
  s_extent s = size_of T ->
  span_write s bs = Some m ->
  storage_fits T w (s_addr s) -> storage_fits T (snd (m w)) (s_addr s).
Proof.
  intros He Hs (cl & Hc & Hl). unfold span_write in Hs.
  destruct (s_const s); [discriminate|]. injection Hs as <-.
  rewrite Hc. destruct (Nat.leb (length bs) (s_extent s)) eqn:Hle; simpl;
    [|exists cl; now split].
  eexists; split; [apply lookup_insert_eq|]; simpl.
  apply Nat.leb_le in Hle. rewrite length_app, length_drop. lia.
Qed.
End storage.

(** ** Destruction *)

Section destruction.
Context {Arg : Type} (T : payload Arg).

(** The later variant's [destroy] performs nothing for a trivially
    destructible payload. *)
Lemma V2_destroy_trivial (self : handle) :
  is_trivially_destructible T = true ->
  exists m, call (V2.maybe_uninit.destroy T self) = Some m /\
            forall w, m w = (Returned tt, w).
Proof.
  intros Ht. unfold call, V2.maybe_uninit.destroy; simpl. rewrite Ht; simpl.
  eexists; split; [reflexivity|]. intros w. reflexivity.
Qed.

(** The later variant's [destroy] runs the destructor of a payload that is
    not trivially destructible on the live object, once, and ends its
    lifetime. *)
Lemma V2_destroy_invokes (self : handle) (w : world) (cl : cell) (v : obj T) :
  is_trivially_destructible T = false ->
  is_destructible T = true ->
  cells w !! h_addr self = Some cl ->
  live cl = true ->
  decode T (storage cl) = Some v ->
  exists m, call (V2.maybe_uninit.destroy T self) = Some m /\
    m w = (enforce (is_nothrow_destructible T) (destructor T v),
           log (destructor_call (h_addr self))
               (set_cell (h_addr self) {| storage := storage cl; live := false; determinate := determinate cl |} w)).
Proof.
  intros Ht Hd Hc Hl Hv. unfold call, V2.maybe_uninit.destroy; simpl.
  rewrite Ht, Hd; simpl. eexists; split; [reflexivity|].
  unfold noexcept. rewrite (destroy_at_live T _ _ _ _ Hc Hl Hv Ht).
  now rewrite enforce_idem.
Qed.

(** The earlier variant's [destruct] on a trivially destructible payload
    reaches [std::destroy_at], which performs nothing. *)
Lemma V1_destruct_trivial (self : handle) (w : world) (cl : cell) :
  h_const self = false ->
  is_destructible T = true ->
  is_trivially_destructible T = true ->
  cells w !! h_addr self = Some cl ->
  exists m, call (V1.maybe_uninit.destruct T self) = Some m /\ m w = (Returned tt, w).
Proof.
  intros Hh Hd Ht Hc. unfold call, V1.maybe_uninit.destruct, V1.maybe_uninit.non_const_member; simpl.
  rewrite Hh, Hd, Ht; simpl. eexists; split; [reflexivity|].
  apply noexcept_returned. now apply destroy_at_trivial with cl.
Qed.

(** The earlier variant's [destruct] on a payload that is not trivially
    destructible performs nothing at all: no destructor runs. *)
Lemma V1_destruct_skips (self : handle) :
  h_const self = false ->
  is_destructible T = true ->
  is_trivially_destructible T = false ->
  exists m, call (V1.maybe_uninit.destruct T self) = Some m /\
            forall w, m w = (Returned tt, w).
Proof.
  intros Hh Hd Ht. unfold call, V1.maybe_uninit.destruct, V1.maybe_uninit.non_const_member; simpl.
  rewrite Hh, Hd, Ht; simpl. eexists; split; [reflexivity|]. intros w. reflexivity.
Qed.
End destruction.

(** The earlier variant's [init] from [42] on the cell at address 1 gives
    [world42]. *)
Lemma V1_init_42 (e : endian) :
  exists m, call (V1.maybe_uninit.init (NonTrivial e) (this 1%N) [int_literal 42]) = Some m /\
            m world0 = (Returned tt, world42 e).
Proof.
  eexists; split; [reflexivity|]. destruct e; reflexivity.
Qed.

Lemma holds_world42 (e : endian) :
  holds (NonTrivial e) (world42 e) 1%N (convert int 42).
Proof.
  eexists; split; [reflexivity|]. split; [reflexivity|]. split; [reflexivity|].
  destruct e; vm_compute; reflexivity.
Qed.

(** C1, at the input where the code departs from it. On a cell that holds
    a live [NonTrivial], a payload type that is not trivially
    destructible, the earlier variant's [destruct] returns without running
    the destructor and leaves the world as it was, the object still alive;
    on the same cell the later variant's [destroy] runs the destructor
    once. *)
Theorem C1_V1_destruct_runs_no_destructor (e : endian) :
  holds (NonTrivial e) (world42 e) 1%N (convert int 42) /\
  (exists m, call (V1.maybe_uninit.destruct (NonTrivial e) (this 1%N)) = Some m /\
             m (world42 e) = (Returned tt, world42 e)) /\
  (exists m w', call (V2.maybe_uninit.destroy (NonTrivial e) (this 1%N)) = Some m /\
                m (world42 e) = (Returned tt, w') /\
                destructor_calls 1%N w' = S (destructor_calls 1%N (world42 e))).
Proof.
  split; [apply holds_world42|]. split.
  - destruct (V1_destruct_skips (NonTrivial e) (this 1%N)) as (m & Hm & Hw); try reflexivity.
    exists m. split; [exact Hm|apply Hw].
  - destruct (holds_world42 e) as (cl & Hc & Hl & _ & Hv).
    destruct (V2_destroy_invokes (NonTrivial e) (this 1%N) (world42 e) cl _
                eq_refl eq_refl Hc Hl Hv) as (m & Hm & Hw).
    exists m. eexists. split; [exact Hm|]. split; [exact Hw|].
    simpl h_addr. now rewrite destructor_calls_log, destructor_calls_set_cell.
Qed.

(** ** Teardown of a cell of the earlier variant *)

Lemma V1_scope_NonTrivial (e : endian) (explicit : bool) :
  exists m, V1_scope (NonTrivial e) true 1%N [int_literal 42] explicit = Some m /\
            m world0 = (Returned tt, world42 e).
Proof.
  destruct explicit; (eexists; split; [reflexivity|]); destruct e; reflexivity.
Qed.

Lemma bind_ret_unit (m : M unit) (w : world) : (let! _ := m in ret tt) w = m w.
Proof.
  unfold bind, ret. destruct (m w) as [[[]|e| |] w']; reflexivity.
Qed.

(** C2, where the code departs from it. For a destructible payload type
    that is not trivially destructible, a block that declares a cell with
    [SELF_DESTRUCT] set, constructs a value in it and ends, with or
    without a call of [destruct] before the end, compiles and completes
    without the destructor of the payload having run at all: the teardown
    calls [destruct], which skips [std::destroy_at] for such a type, and
    the value is still alive when the storage goes away. Had the teardown
    the effect of the later variant's [destroy], the destructor would have
    run once. *)
Theorem C2_self_destruct_runs_no_destructor {Arg} (T : payload Arg) (a : addr)
    (args : list Arg) (explicit : bool) (w : world) (cl : cell) (v : obj T) :
  is_destructible T = true ->
  is_trivially_destructible T = false ->
  cells w !! a = Some cl ->
  direct_init T args = Some (Returned (Some v)) ->
  decode T (encode T v) = Some v ->
  (exists m w',
     V1_scope T true a args explicit = Some m /\
     m w = (Returned tt, w') /\
     destructor_calls a w' = destructor_calls a w /\
     holds T w' a v) /\
  ~ destroyed_exactly_once T a args explicit w /\
  (destructor T v = Returned tt ->
   exists m w',
     and_then (call (V1.maybe_uninit.init T (this a) args))
              (call (V2.maybe_uninit.destroy T (this a))) = Some m /\
     m w = (Returned tt, w') /\
     destructor_calls a w' = S (destructor_calls a w)).
Proof.
  intros Hd Ht Hw Hi Hv.
  destruct (initialise_Some T _ _ Hi) as (c & Hf & Hr).
  set (w1 := set_cell a {| storage := encode T v; live := true; determinate := true |} w).
  assert (Hinit : call (V1.maybe_uninit.init T (this a) args) =
            Some (noexcept (is_nothrow_constructible T args)
                    (discard (placement_new T c a)))).
  { unfold call, V1.maybe_uninit.init; simpl. now rewrite Hf. }
  assert (Hrun : noexcept (is_nothrow_constructible T args)
                   (discard (placement_new T c a)) w = (Returned tt, w1)).
  { apply noexcept_returned. unfold discard, bind.
    now rewrite (placement_new_value T c a w cl v Hw Hr). }
  assert (Hscope : exists m, V1_scope T true a args explicit = Some m /\
                             m w = (Returned tt, w1)).
  { unfold V1_scope. rewrite Hinit.
    unfold call at 1 2 3; simpl. unfold V1.maybe_uninit.destruct at 1; simpl.
    unfold call; simpl. rewrite Hd, Ht; simpl.
    destruct explicit; simpl; (eexists; split; [reflexivity|]);
      unfold bind at 1; simpl; unfold bind at 1; rewrite Hrun; reflexivity. }
  destruct Hscope as (m & Hm & Hmw).
  split; [|split].
  - exists m, w1. split; [exact Hm|]. split; [exact Hmw|].
    split; [reflexivity|now apply holds_set_cell].
  - intros (m' & w' & Hm' & Hw' & Hc).
    rewrite Hm in Hm'. injection Hm' as <-.
    rewrite Hmw in Hw'. injection Hw' as <-.
    unfold w1 in Hc. rewrite destructor_calls_set_cell in Hc. lia.
  - intros Hdt.
    assert (Hw1 : cells w1 !! a = Some {| storage := encode T v; live := true;
                                          determinate := true |})
      by apply lookup_insert_eq.
    destruct (V2_destroy_invokes T (this a) w1 _ v Ht Hd Hw1 eq_refl Hv) as (n & Hn & Hnw).
    unfold and_then. rewrite Hinit, Hn. simpl.
    eexists _, _. split; [reflexivity|]. split.
    + unfold bind at 1. rewrite Hrun, Hnw, Hdt. reflexivity.
    + simpl. now rewrite destructor_calls_log, !destructor_calls_set_cell.
Qed.

(** The README's example: [NonTrivial] constructed from [42] in a cell
    with [SELF_DESTRUCT] set, the block then ending. *)
Lemma C2_self_destruct_runs_no_destructor_witness :
  is_destructible (NonTrivial little) = true /\
  is_trivially_destructible (NonTrivial little) = false /\
  cells world0 !! 1%N = Some cell0 /\
  direct_init (NonTrivial little) [int_literal 42] = Some (Returned (Some (convert int 42))) /\
  decode (NonTrivial little) (encode (NonTrivial little) (convert int 42))
    = Some (convert int 42) /\
  (exists m w',
     V1_scope (NonTrivial little) true 1%N [int_literal 42] false = Some m /\
     m world0 = (Returned tt, w') /\
     destructor_calls 1%N w' = destructor_calls 1%N world0 /\
     holds (NonTrivial little) w' 1%N (convert int 42)) /\
  ~ destroyed_exactly_once (NonTrivial little) 1%N [int_literal 42] false world0.
Proof.
  split; [reflexivity|]. split; [reflexivity|]. split; [reflexivity|].
  split; [reflexivity|]. split; [vm_compute; reflexivity|].
  assert (Hv : decode (NonTrivial little) (encode (NonTrivial little) (convert int 42))
               = Some (convert int 42)) by (vm_compute; reflexivity).
  destruct (C2_self_destruct_runs_no_destructor (NonTrivial little) 1%N [int_literal 42]
              false world0 cell0 (convert int 42) eq_refl eq_refl eq_refl eq_refl Hv)
    as (H1 & H2 & _).
  split; [exact H1|exact H2].
Defined.

(** ** Construction *)

(** C3 fails as stated for the earlier variant: its [init], here
    constructing a [NonTrivial] from [42], returns [void], so no reference
    to the new value comes back from it. *)
Lemma C3_counterexample :
  ~ returns_reference_to (NonTrivial little)
      (V1.maybe_uninit.init (NonTrivial little) (this 1%N) [int_literal 42])
      1%N (convert int 42) world0.
Proof.
  intros (m & x & w' & r & _ & _ & Hr & _). discriminate Hr.
Qed.

Section construction.
Context {Arg : Type} (T : payload Arg).

Lemma V2_member_call (self : handle) (tag : init_tag Arg) (c : ctor (obj T)) :
  h_const self = false ->
  is_const T = false ->
  form T tag = Some c ->
  call (V2_member T self tag) =
    Some (noexcept (ctor_noexcept c)
            (let! p := placement_new T c (h_addr self) in ret (deref p))).
Proof.
  intros Hh Hc Hf.
  destruct tag; simpl in Hf; unfold call, V2_member; simpl;
    unfold V2.detail.default_constructible, V2.detail.paren_constructible_from,
      V2.detail.brace_constructible_from, V2.detail.nothrow_default_constructible,
      V2.detail.nothrow_paren_constructible_from, V2.detail.nothrow_brace_constructible_from,
      V2.maybe_uninit.new_object, V2.maybe_uninit.object_const;
    rewrite Hf, Hh, Hc; reflexivity.
Qed.

(** A strategy of the later variant whose initialisation completes with
    the value [v]: the call compiles, writes the object representation of
    [v] to the cell, starts the lifetime of the object, and returns the
    lvalue reference to the cell's member. *)
Lemma V2_member_run (self : handle) (tag : init_tag Arg) (w : world) (cl : cell) (v : obj T) :
  h_const self = false ->
  is_const T = false ->
  cells w !! h_addr self = Some cl ->
  initialise T (form T tag) = Some (Returned (Some v)) ->
  exists m,
    call (V2_member T self tag) = Some m /\
    m w = (Returned {| r_addr := h_addr self; r_const := false; r_cat := lvalue |},
           set_cell (h_addr self) {| storage := encode T v; live := true; determinate := true |} w).
Proof.
  intros Hh Hc Hw Hi.
  destruct (initialise_Some T _ _ Hi) as (c & Hf & Hr).
  rewrite (V2_member_call self tag c Hh Hc Hf).
  eexists. split; [reflexivity|].
  apply noexcept_returned. unfold bind.
  rewrite (placement_new_value T c _ w cl v Hw Hr). reflexivity.
Qed.

(** Whatever way the initialisation ends, the strategy ends that way: a
    value is returned as the reference to it, an exception leaves the
    strategy unchanged and the cell holds no live object. *)
Lemma V2_member_propagates (self : handle) (tag : init_tag Arg) (w : world) (cl : cell)
    (c : ctor (obj T)) :
  h_const self = false ->
  is_const T = false ->
  cells w !! h_addr self = Some cl ->
  form T tag = Some c ->
  exists m,
    call (V2_member T self tag) = Some m /\
    match enforce (ctor_noexcept c) (ctor_run c) with
    | Returned _ =>
      exists cl', m w = (Returned {| r_addr := h_addr self; r_const := false; r_cat := lvalue |},
                         set_cell (h_addr self) cl' w) /\ live cl' = true
    | Thrown e =>
      exists cl', m w = (Thrown e, set_cell (h_addr self) cl' w) /\ live cl' = false
    | Terminated => m w = (Terminated, w)
    | Undefined => m w = (Undefined, w)
    end.
Proof.
  intros Hh Hc Hw Hf.
  rewrite (V2_member_call self tag c Hh Hc Hf).
  eexists. split; [reflexivity|].
  unfold noexcept, bind, placement_new. rewrite Hw.
  destruct (ctor_run c) as [[v|]|e| |], (ctor_noexcept c); simpl;
    try reflexivity; eexists; split; reflexivity.
Qed.

(** C3, amended. In the later variant every construction strategy
    (default, parentheses, braces) that compiles and whose initialisation
    completes with the value [v] returns a reference to the cell, where an
    object of value [v] now lives: for parentheses, the value of the
    direct construction [T(args...)]. The earlier variant's [init] returns
    nothing; after it the cell holds the value of [T(args...)] all the
    same, and [assume_init] gives the reference to it. *)
Theorem C3_strategies_construct_in_place (self : handle) (tag : init_tag Arg)
    (w : world) (cl : cell) (v : obj T) :
  h_const self = false ->
  is_const T = false ->
  cells w !! h_addr self = Some cl ->
  initialise T (form T tag) = Some (Returned (Some v)) ->
  decode T (encode T v) = Some v ->
  returns_reference_to T (V2_member T self tag) (h_addr self) v w /\
  (forall args, tag = paren_init_t args ->
     direct_init T args = Some (Returned (Some v)) /\
     exists m w' n r,
       call (V1.maybe_uninit.init T self args) = Some m /\
       m w = (Returned tt, w') /\
       holds T w' (h_addr self) v /\
       call (V1.maybe_uninit.assume_init T self) = Some n /\
       n w' = (Returned r, w') /\
       load T w' r = Some v).
Proof.
  intros Hh Hc Hw Hi Hd.
  destruct (initialise_Some T _ _ Hi) as (c & Hf & Hr).
  split.
  - destruct (V2_member_run self tag w cl v Hh Hc Hw Hi) as (m & Hm & Hrun).
    exists m. eexists _, _, _. split; [exact Hm|]. split; [exact Hrun|].
    split; [reflexivity|]. split; [reflexivity|]. split.
    + now apply holds_set_cell.
    + unfold load, set_cell; simpl. now rewrite lookup_insert_eq.
  - intros args ->. simpl in Hf, Hi. split; [exact Hi|].
    unfold call, V1.maybe_uninit.init, V1.maybe_uninit.assume_init,
      V1.maybe_uninit.non_const_member; simpl.
    rewrite Hh, Hf; simpl.
    eexists _, _, _, _. split; [reflexivity|]. split.
    + apply noexcept_returned. unfold discard, bind.
      rewrite (placement_new_value T c _ w cl v Hw Hr). reflexivity.
    + split; [now apply holds_set_cell|]. split; [reflexivity|].
      split; [reflexivity|].
      unfold load, set_cell; simpl. now rewrite lookup_insert_eq.
Qed.
End construction.

(** For [NonTrivial], whose default constructor is deleted, default
    initialisation does not compile in either variant. *)
Lemma NonTrivial_no_default_init (e : endian) (self : handle) (a : addr) :
  call (V2.maybe_uninit.default_init (NonTrivial e) self) = None /\
  call (V2.maybe_uninit.ctor_default_init_t (NonTrivial e) a) = None /\
  call (V2.default_init (NonTrivial e) a) = None /\
  call (V1.maybe_uninit.default_init (NonTrivial e) self) = None /\
  call (V1.default_init (NonTrivial e) a) = None.
Proof.
  unfold call; simpl. destruct (V1.maybe_uninit.non_const_member self); auto.
Qed.

(** The cell at address 1, constructed from [42] by the later variant's
    [paren_init] or by the earlier variant's [init], holds the value of
    [NonTrivial(42)]. *)
Lemma C3_strategies_construct_in_place_witness :
  h_const (this 1%N) = false /\
  is_const (NonTrivial little) = false /\
  cells world0 !! h_addr (this 1%N) = Some cell0 /\
  initialise (NonTrivial little) (form (NonTrivial little) (paren_init_t [int_literal 42]))
    = Some (Returned (Some (convert int 42))) /\
  decode (NonTrivial little) (encode (NonTrivial little) (convert int 42))
    = Some (convert int 42) /\
  returns_reference_to (NonTrivial little)
    (V2_member (NonTrivial little) (this 1%N) (paren_init_t [int_literal 42]))
    (h_addr (this 1%N)) (convert int 42) world0 /\
  (forall args, paren_init_t [int_literal 42] = paren_init_t args ->
     direct_init (NonTrivial little) args = Some (Returned (Some (convert int 42))) /\
     exists m w' n r,
       call (V1.maybe_uninit.init (NonTrivial little) (this 1%N) args) = Some m /\
       m world0 = (Returned tt, w') /\
       holds (NonTrivial little) w' (h_addr (this 1%N)) (convert int 42) /\
       call (V1.maybe_uninit.assume_init (NonTrivial little) (this 1%N)) = Some n /\
       n w' = (Returned r, w') /\
       load (NonTrivial little) w' r = Some (convert int 42)).
Proof.
  split; [reflexivity|]. split; [reflexivity|]. split; [reflexivity|].
  split; [reflexivity|]. split; [vm_compute; reflexivity|].
  apply (C3_strategies_construct_in_place (NonTrivial little) (this 1%N)
           (paren_init_t [int_literal 42]) world0 cell0 (convert int 42));
    try reflexivity.
Defined.

(** ** Integer payloads *)

Lemma int_word_ok (t : int_type) : word.ok (Naive.word (int_width t)).
Proof. apply Naive.ok. reflexivity. Qed.

Lemma int_width_pos (t : int_type) : (0 < int_width t)%Z.
Proof. reflexivity. Qed.

Lemma in_range_spec (t : int_type) (v : Z) :
  in_range t v = true <-> (int_min t <= v <= int_max t)%Z.
Proof.
  unfold in_range. rewrite andb_true_iff, !Z.leb_le. tauto.
Qed.

(** A value of [t] is in the range of [t]. *)
Lemma int_value_in_range (t : int_type) (x : int_rep t) :
  in_range t (int_value t x) = true.
Proof.
  pose proof (int_word_ok t) as Hok.
  apply in_range_spec. unfold int_value, int_min, int_max.
  destruct (int_signed t).
  - pose proof (word.signed_range x). lia.
  - pose proof (word.unsigned_range x). lia.
Qed.

(** Conversion keeps the value modulo 2^width. *)
Lemma convert_congruent (t : int_type) (v : Z) :
  ((int_value t (convert t v) - v) mod 2 ^ int_width t = 0)%Z.
Proof.
  pose proof (int_word_ok t) as Hok.
  pose proof (int_width_pos t) as Hpos.
  assert (0 < 2 ^ int_width t)%Z as HM by (apply Z.pow_pos_nonneg; lia).
  unfold int_value, convert. destruct (int_signed t).
  - rewrite word.signed_of_Z. unfold word.swrap.
    set (h := (2 ^ (int_width t - 1))%Z).
    rewrite (Z.mod_eq (v + h)) by lia.
    replace (v + h - 2 ^ int_width t * ((v + h) / 2 ^ int_width t) - h - v)%Z
      with (- ((v + h) / 2 ^ int_width t) * 2 ^ int_width t)%Z by ring.
    apply Z.mod_mul. lia.
  - rewrite word.unsigned_of_Z. unfold word.wrap.
    rewrite (Z.mod_eq v) by lia.
    replace (v - 2 ^ int_width t * (v / 2 ^ int_width t) - v)%Z
      with (- (v / 2 ^ int_width t) * 2 ^ int_width t)%Z by ring.
    apply Z.mod_mul. lia.
Qed.

Lemma byte_order_involutive (e : endian) (bs : list byte) :
  byte_order e (byte_order e bs) = bs.
Proof. destruct e; simpl; [reflexivity|apply rev_involutive]. Qed.

Lemma byte_order_length (e : endian) (bs : list byte) :
  length (byte_order e bs) = length bs.
Proof. destruct e; simpl; [reflexivity|apply length_rev]. Qed.

Lemma int_encode_length (e : endian) (t : int_type) (x : int_rep t) :
  length (int_encode e t x) = Pos.to_nat (int_bytes t).
Proof. unfold int_encode. now rewrite byte_order_length, length_le_split. Qed.

(** The object representation of an integer determines it. *)
Lemma int_decode_encode (e : endian) (t : int_type) (x : int_rep t) :
  int_decode e t (int_encode e t x) = Some x.
Proof.
  pose proof (int_word_ok t) as Hok.
  unfold int_decode. rewrite int_encode_length, Nat.eqb_refl.
  unfold int_encode. rewrite byte_order_involutive, le_combine_split.
  f_equal.
  replace (Z.of_nat (Pos.to_nat (int_bytes t)) * 8)%Z with (int_width t)
    by (unfold int_width; lia).
  rewrite <- (word.of_Z_unsigned x) at 2. f_equal.
  apply Z.mod_small, word.unsigned_range.
Qed.

Lemma int_payload_ok (e : endian) (t : int_type) : payload_ok (int_payload e t).
Proof.
  split; simpl.
  - apply int_encode_length.
  - apply int_decode_encode.
  - reflexivity.
Qed.

Lemma NonTrivial_ok (e : endian) : payload_ok (NonTrivial e).
Proof.
  split; simpl.
  - apply (int_encode_length e int).
  - apply (int_decode_encode e int).
  - discriminate.
Qed.

(** A value of [u] outside the range of [t]: converting from [u] to [t]
    narrows. *)
Lemma out_of_range_narrows (t u : int_type) (v : Z) :
  in_range u v = true -> in_range t v = false -> fits u t = false.
Proof.
  intros Hu Ht. apply in_range_spec in Hu.
  destruct (fits u t) eqn:Hf; [|reflexivity].
  unfold fits in Hf. rewrite andb_true_iff, !Z.leb_le in Hf.
  assert (in_range t v = true) as Hin by (apply in_range_spec; lia).
  congruence.
Qed.

(** C4. For an integer payload type [t] and a forwarded argument of the
    integer type [u] whose value [v] is outside the range of [t], brace
    construction is rejected at compile time, through the member function
    [brace_init] and through the tag constructor alike, while paren
    construction compiles, completes and stores the conversion of [v] to
    [t]: a value of [t] that differs from [v] and is congruent to it modulo
    2^width. *)
Theorem C4_brace_rejects_narrowing (e : endian) (t u : int_type) (v : Z)
    (self : handle) (w : world) (cl : cell) :
  h_const self = false ->
  cells w !! h_addr self = Some cl ->
  in_range u v = true ->
  in_range t v = false ->
  let x := {| arg_type := u; arg_value := v |} in
  call (V2.maybe_uninit.brace_init (int_payload e t) self [x]) = None /\
  call (V2.maybe_uninit.ctor_brace_init_t (int_payload e t) (h_addr self) [x]) = None /\
  (exists m,
     call (V2.maybe_uninit.paren_init (int_payload e t) self [x]) = Some m /\
     m w = (Returned {| r_addr := h_addr self; r_const := false; r_cat := lvalue |},
            set_cell (h_addr self)
              {| storage := int_encode e t (convert t v); live := true;
                 determinate := true |} w)) /\
  in_range t (int_value t (convert t v)) = true /\
  int_value t (convert t v) <> v /\
  ((int_value t (convert t v) - v) mod 2 ^ int_width t = 0)%Z.
Proof.
  intros Hh Hc Hu Ht x.
  pose proof (out_of_range_narrows t u v Hu Ht) as Hn.
  repeat split.
  - unfold call, V2.maybe_uninit.brace_init, V2.detail.brace_constructible_from; simpl.
    now rewrite Hn.
  - unfold call, V2.maybe_uninit.ctor_brace_init_t, V2.detail.brace_constructible_from; simpl.
    now rewrite Hn.
  - unfold call, V2.maybe_uninit.paren_init, V2.maybe_uninit.new_object,
      V2.maybe_uninit.object_const; simpl. rewrite Hh; simpl.
    eexists; split; [reflexivity|].
    unfold noexcept, bind, placement_new; simpl. now rewrite Hc.
  - apply int_value_in_range.
  - intros Heq. pose proof (int_value_in_range t (convert t v)) as Hin.
    rewrite Heq in Hin. congruence.
  - apply convert_congruent.
Qed.

(** [int32_t] from the largest [int64_t], as in the README. *)
Lemma C4_brace_rejects_narrowing_witness :
  h_const (this 1%N) = false /\
  cells world0 !! h_addr (this 1%N) = Some cell0 /\
  in_range int64_t (2 ^ 63 - 1) = true /\
  in_range int32_t (2 ^ 63 - 1) = false /\
  let x := {| arg_type := int64_t; arg_value := 2 ^ 63 - 1 |} in
  call (V2.maybe_uninit.brace_init (int_payload little int32_t) (this 1%N) [x]) = None /\
  call (V2.maybe_uninit.ctor_brace_init_t (int_payload little int32_t) (h_addr (this 1%N)) [x])
    = None /\
  (exists m,
     call (V2.maybe_uninit.paren_init (int_payload little int32_t) (this 1%N) [x]) = Some m /\
     m world0 =
       (Returned {| r_addr := h_addr (this 1%N); r_const := false; r_cat := lvalue |},
        set_cell (h_addr (this 1%N))
          {| storage := int_encode little int32_t (convert int32_t (2 ^ 63 - 1));
             live := true; determinate := true |} world0)) /\
  in_range int32_t (int_value int32_t (convert int32_t (2 ^ 63 - 1))) = true /\
  int_value int32_t (convert int32_t (2 ^ 63 - 1)) <> (2 ^ 63 - 1)%Z /\
  ((int_value int32_t (convert int32_t (2 ^ 63 - 1)) - (2 ^ 63 - 1))
     mod 2 ^ int_width int32_t = 0)%Z.
Proof.
  split; [reflexivity|]. split; [reflexivity|].
  split; [vm_compute; reflexivity|]. split; [vm_compute; reflexivity|].
  apply (C4_brace_rejects_narrowing little int32_t int64_t (2 ^ 63 - 1)
           (this 1%N) world0 cell0); vm_compute; reflexivity.
Defined.

(** The lossy conversion of the README: the largest [int64_t] becomes
    [-1]. *)
Example int64_max_to_int32 : int_value int32_t (convert int32_t (2 ^ 63 - 1)) = (-1)%Z.
Proof. vm_compute. reflexivity. Qed.

(** ** Construction at creation time *)

Lemma noexcept_discard_idem {A} (b : bool) (m : M A) (w : world) :
  noexcept b (discard (noexcept b m)) w = discard (noexcept b m) w.
Proof.
  unfold noexcept, discard, bind, ret.
  destruct (m w) as [[x|e| |] w']; destruct b; reflexivity.
Qed.

Section tag_construction.
Context {Arg : Type} (T : payload Arg).

Lemma V2_constructor_two_steps (a : addr) (tag : init_tag Arg) :
  same_behaviour (call (V2_constructor T a tag)) (two_steps T a tag).
Proof.
  unfold two_steps, and_then.
  destruct tag; unfold V2_constructor, V2_member; unfold_calls;
    match goal with
    | |- context [if ?c then _ else _] => destruct c; cbn; [|exact I]
    end;
    match goal with
    | |- context [V2.maybe_uninit.new_object T ?o ?h] =>
      destruct (V2.maybe_uninit.new_object T o h) as [m|]; cbn; [|exact I]
    end;
    intros w; apply noexcept_discard_idem.
Qed.

Lemma V2_free_function_constructor (a : addr) (tag : init_tag Arg) :
  same_behaviour (call (V2_free_function T a tag)) (call (V2_constructor T a tag)).
Proof.
  destruct tag; unfold V2_free_function, V2_constructor; unfold_calls;
    match goal with
    | |- context [if ?c then _ else _] => destruct c; cbn; [|exact I]
    end;
    match goal with
    | |- context [V2.maybe_uninit.new_object T ?o ?h] =>
      destruct (V2.maybe_uninit.new_object T o h) as [m|]; cbn; [|exact I]
    end;
    intros w; apply noexcept_idem.
Qed.

Lemma same_behaviour_trans {A} (p q r : option (M A)) :
  same_behaviour p q -> same_behaviour q r -> same_behaviour p r.
Proof.
  destruct p, q, r; simpl; try tauto. intros H1 H2 w. now rewrite H1.
Qed.

(** Every tag constructor, and every free function that takes its
    arguments as a pack, is accepted by the compiler exactly when creating
    an uninitialized cell and calling the strategy's member function with
    the same arguments is, and then they end in the same way in the same
    world; so do the free functions that deduce the payload type from a
    single rvalue argument. *)
Lemma V2_tag_construction_two_steps (a : addr) (tag : init_tag Arg) (t : Arg) :
  same_behaviour (call (V2_constructor T a tag)) (two_steps T a tag) /\
  same_behaviour (call (V2_free_function T a tag)) (two_steps T a tag) /\
  same_behaviour (call (V2.paren_init_deduced T a rvalue t)) (two_steps T a (paren_init_t [t])) /\
  same_behaviour (call (V2.brace_init_deduced T a rvalue t)) (two_steps T a (brace_init_t [t])).
Proof.
  split; [apply V2_constructor_two_steps|].
  split; [eapply same_behaviour_trans;
          [apply V2_free_function_constructor|apply V2_constructor_two_steps]|].
  split.
  - eapply same_behaviour_trans;
      [|apply (V2_constructor_two_steps a (paren_init_t [t]))].
    apply (V2_free_function_constructor a (paren_init_t [t])).
  - eapply same_behaviour_trans;
      [|apply (V2_constructor_two_steps a (brace_init_t [t]))].
    apply (V2_free_function_constructor a (brace_init_t [t])).
Qed.
End tag_construction.

Lemma fits_refl (t : int_type) : fits t t = true.
Proof. unfold fits. now rewrite !Z.leb_refl. Qed.

(** Converting the value of an integer of type [t] to [t] gives it back. *)
Lemma convert_int_value (t : int_type) (x : int_rep t) : convert t (int_value t x) = x.
Proof.
  pose proof (int_word_ok t) as Hok. unfold convert, int_value.
  destruct (int_signed t); [apply word.of_Z_signed|apply word.of_Z_unsigned].
Qed.

(** C5, where the code departs from it. For an integer payload type [t]
    and an argument of the integer type [u] whose value [v] is outside the
    range of [t], creating a cell and calling [brace_init(x)] on it does
    not compile, nor does the tag constructor; the call
    [brace_init<T>(x)] of the free function does: the overload that takes
    its arguments as a pack is refused like the member function, and the
    call goes to the overload [brace_init(T&& t)], whose parameter is
    initialised with the argument converted to [t]. The cell it returns
    holds that converted value, which is not [v]. *)
Theorem C5_free_function_accepts_narrowing (e : endian) (t u : int_type) (v : Z)
    (a : addr) (w : world) (cl : cell) :
  cells w !! a = Some cl ->
  in_range u v = true ->
  in_range t v = false ->
  let T := int_payload e t in
  let x := {| arg_type := u; arg_value := v |} in
  two_steps T a (brace_init_t [x]) = None /\
  call (V2_constructor T a (brace_init_t [x])) = None /\
  call (V2.brace_init T a [x]) = None /\
  (exists m,
     V2.brace_init_call T (int_bind_parameter t) a [x] = Some m /\
     m w = (Returned tt,
            set_cell a {| storage := int_encode e t (convert t v); live := true;
                          determinate := true |} w)) /\
  int_value t (convert t v) <> v.
Proof.
  intros Hw Hu Ht T x.
  pose proof (out_of_range_narrows t u v Hu Ht) as Hn.
  split; [|split; [|split; [|split]]].
  - unfold two_steps, and_then, call; simpl.
    unfold V2.detail.brace_constructible_from; simpl. now rewrite Hn.
  - unfold call; simpl. unfold V2.detail.brace_constructible_from; simpl. now rewrite Hn.
  - unfold call; simpl. unfold V2.detail.brace_constructible_from; simpl. now rewrite Hn.
  - unfold V2.brace_init_call, V2.brace_init_single, int_bind_parameter; simpl.
    unfold V2.detail.brace_constructible_from; simpl. rewrite Hn; simpl.
    repeat (unfold call; simpl;
            unfold V2.detail.brace_constructible_from,
              V2.detail.nothrow_brace_constructible_from,
              V2.maybe_uninit.new_object, V2.maybe_uninit.object_const; simpl;
            rewrite ?fits_refl; simpl).
    eexists; split; [reflexivity|].
    unfold noexcept, discard, bind, ret, placement_new; simpl. rewrite Hw; simpl.
    now rewrite convert_int_value.
  - intros Heq. pose proof (int_value_in_range t (convert t v)) as Hin.
    rewrite Heq in Hin. congruence.
Qed.

(** [mem::brace_init<std::int32_t>(v)] for [v] the largest [std::int64_t]:
    the cell holds [-1]. *)
Lemma C5_free_function_accepts_narrowing_witness :
  let T := int_payload little int32_t in
  let x := {| arg_type := int64_t; arg_value := 2 ^ 63 - 1 |} in
  cells world0 !! 1%N = Some cell0 /\
  in_range int64_t (2 ^ 63 - 1) = true /\
  in_range int32_t (2 ^ 63 - 1) = false /\
  two_steps T 1%N (brace_init_t [x]) = None /\
  call (V2_constructor T 1%N (brace_init_t [x])) = None /\
  call (V2.brace_init T 1%N [x]) = None /\
  (exists m,
     V2.brace_init_call T (int_bind_parameter int32_t) 1%N [x] = Some m /\
     m world0 = (Returned tt,
                 set_cell 1%N {| storage := int_encode little int32_t
                                              (convert int32_t (2 ^ 63 - 1));
                                 live := true; determinate := true |} world0)) /\
  int_value int32_t (convert int32_t (2 ^ 63 - 1)) <> (2 ^ 63 - 1)%Z.
Proof.
  intros T x.
  split; [reflexivity|]. split; [vm_compute; reflexivity|].
  split; [vm_compute; reflexivity|].
  apply (C5_free_function_accepts_narrowing little int32_t int64_t (2 ^ 63 - 1)
           1%N world0 cell0); vm_compute; reflexivity.
Defined.

(** ** Reuse of a cell *)

(** C8. For a payload type constructible in parentheses from [args] and
    from [other_args], on one cell of the later variant:
    [paren_init(args...)] compiles and leaves a live value equal to
    [T(args...)]; [destroy()] compiles and completes, running the
    destructor once unless it is trivial; [paren_init(other_args...)]
    compiles again and returns a reference to the cell, which now holds a
    live value equal to [T(other_args...)]. *)
Theorem C8_cell_is_reusable {Arg} (T : payload Arg) (self : handle)
    (args other_args : list Arg) (w : world) (cl : cell) (v1 v2 : obj T) :
  h_const self = false ->
  is_const T = false ->
  is_destructible T = true ->
  cells w !! h_addr self = Some cl ->
  direct_init T args = Some (Returned (Some v1)) ->
  direct_init T other_args = Some (Returned (Some v2)) ->
  decode T (encode T v1) = Some v1 ->
  decode T (encode T v2) = Some v2 ->
  destructor T v1 = Returned tt ->
  exists m1 m2 m3 r1 r2 w1 w2 w3,
    call (V2.maybe_uninit.paren_init T self args) = Some m1 /\
    m1 w = (Returned r1, w1) /\
    holds T w1 (h_addr self) v1 /\
    call (V2.maybe_uninit.destroy T self) = Some m2 /\
    m2 w1 = (Returned tt, w2) /\
    call (V2.maybe_uninit.paren_init T self other_args) = Some m3 /\
    m3 w2 = (Returned r2, w3) /\
    r_addr r2 = h_addr self /\
    holds T w3 (h_addr self) v2 /\
    load T w3 r2 = Some v2 /\
    destructor_calls (h_addr self) w3 =
      ((if is_trivially_destructible T then 0 else 1) + destructor_calls (h_addr self) w)%nat.
Proof.
  intros Hh Hc Hd Hw H1 H2 Hv1 Hv2 Hdt.
  set (a := h_addr self).
  set (w1 := set_cell a {| storage := encode T v1; live := true; determinate := true |} w).
  assert (Hw1 : cells w1 !! a = Some {| storage := encode T v1; live := true; determinate := true |})
    by apply lookup_insert_eq.
  destruct (V2_member_run T self (paren_init_t args) w cl v1 Hh Hc Hw H1) as (m1 & Hm1 & Hr1).
  assert (exists m2 w2, call (V2.maybe_uninit.destroy T self) = Some m2 /\
            m2 w1 = (Returned tt, w2) /\
            is_Some (cells w2 !! a) /\
            destructor_calls a w2 =
              ((if is_trivially_destructible T then 0 else 1) + destructor_calls a w)%nat)
    as (m2 & w2 & Hm2 & Hr2 & [cl2 Hw2] & Hn2).
  { destruct (is_trivially_destructible T) eqn:Ht.
    - destruct (V2_destroy_trivial T self Ht) as (m2 & Hm2 & Hr2).
      exists m2, w1. split; [exact Hm2|]. split; [apply Hr2|]. split; [eauto|reflexivity].
    - destruct (V2_destroy_invokes T self w1 _ v1 Ht Hd Hw1 eq_refl Hv1) as (m2 & Hm2 & Hr2).
      exists m2. eexists. split; [exact Hm2|]. split.
      + rewrite Hr2, Hdt. reflexivity.
      + split.
        * eexists. apply lookup_insert_eq.
        * fold a. now rewrite destructor_calls_log, !destructor_calls_set_cell. }
  destruct (V2_member_run T self (paren_init_t other_args) w2 cl2 v2 Hh Hc Hw2 H2)
    as (m3 & Hm3 & Hr3).
  exists m1, m2, m3. eexists _, _, w1, w2, _.
  split; [exact Hm1|]. split; [exact Hr1|]. split; [now apply holds_set_cell|].
  split; [exact Hm2|]. split; [exact Hr2|]. split; [exact Hm3|]. split; [exact Hr3|].
  split; [reflexivity|]. split; [now apply holds_set_cell|]. split.
  - unfold load, set_cell; simpl. now rewrite lookup_insert_eq.
  - now rewrite destructor_calls_set_cell.
Qed.

Lemma C8_cell_is_reusable_witness :
  h_const (this 1%N) = false /\
  is_const (NonTrivial little) = false /\
  is_destructible (NonTrivial little) = true /\
  cells world0 !! h_addr (this 1%N) = Some cell0 /\
  direct_init (NonTrivial little) [int_literal 42] = Some (Returned (Some (convert int 42))) /\
  direct_init (NonTrivial little) [int_literal 7] = Some (Returned (Some (convert int 7))) /\
  decode (NonTrivial little) (encode (NonTrivial little) (convert int 42))
    = Some (convert int 42) /\
  decode (NonTrivial little) (encode (NonTrivial little) (convert int 7))
    = Some (convert int 7) /\
  destructor (NonTrivial little) (convert int 42) = Returned tt /\
  exists m1 m2 m3 r1 r2 w1 w2 w3,
    call (V2.maybe_uninit.paren_init (NonTrivial little) (this 1%N) [int_literal 42]) = Some m1 /\
    m1 world0 = (Returned r1, w1) /\
    holds (NonTrivial little) w1 (h_addr (this 1%N)) (convert int 42) /\
    call (V2.maybe_uninit.destroy (NonTrivial little) (this 1%N)) = Some m2 /\
    m2 w1 = (Returned tt, w2) /\
    call (V2.maybe_uninit.paren_init (NonTrivial little) (this 1%N) [int_literal 7]) = Some m3 /\
    m3 w2 = (Returned r2, w3) /\
    r_addr r2 = h_addr (this 1%N) /\
    holds (NonTrivial little) w3 (h_addr (this 1%N)) (convert int 7) /\
    load (NonTrivial little) w3 r2 = Some (convert int 7) /\
    destructor_calls (h_addr (this 1%N)) w3 =
      ((if is_trivially_destructible (NonTrivial little) then 0 else 1)
       + destructor_calls (h_addr (this 1%N)) world0)%nat.
Proof.
  split; [reflexivity|]. split; [reflexivity|]. split; [reflexivity|].
  split; [reflexivity|]. split; [reflexivity|]. split; [reflexivity|].
  split; [vm_compute; reflexivity|]. split; [vm_compute; reflexivity|].
  split; [reflexivity|].
  apply (C8_cell_is_reusable (NonTrivial little) (this 1%N) [int_literal 42] [int_literal 7]
           world0 cell0 (convert int 42) (convert int 7));
    try reflexivity; vm_compute; reflexivity.
Defined.

(** ** The byte view *)

Section byte_view.
Context {Arg : Type} (T : payload Arg).

(** On every handle but a const rvalue over a non-const payload, [bytes]
    compiles and returns a span of [sizeof(T)] bytes at the cell's
    address, const exactly when the handle or [T] is. *)
Lemma V2_bytes_view (self : handle) :
  (h_const self && negb (is_const T) &&
   match h_cat self with rvalue => true | lvalue => false end) = false ->
  exists m,
    call (V2.maybe_uninit.bytes T self) = Some m /\
    forall w, m w = (Returned {| s_addr := h_addr self;
                                 s_extent := size_of T;
                                 s_const := h_const self || is_const T |}, w).
Proof.
  intros Hx. unfold call, V2.maybe_uninit.bytes, V2.maybe_uninit.byte_type_const,
    V2.maybe_uninit.object_const, V2.detail.const_ref, deduce_Self,
    is_reference_v, is_const_v, remove_reference_t; simpl.
  destruct self as [a c k]; simpl in *.
  destruct c, k, (is_const T); simpl in *; try discriminate;
    (eexists; split; [reflexivity|]; intros w; reflexivity).
Qed.

(** On a const rvalue cell over a non-const payload, [Self] is deduced to
    the const cell type itself, which is no reference: [const_ref<Self>]
    is false, [byte_type] is the non-const [std::byte], and the
    [reinterpret_cast] from the address of the const member is refused. *)
Lemma V2_bytes_const_rvalue (a : addr) :
  is_const T = false ->
  V2.detail.const_ref (deduce_Self (const_rvalue a)) = false /\
  V2.maybe_uninit.byte_type_const T (const_rvalue a) = false /\
  call (V2.maybe_uninit.bytes T (const_rvalue a)) = None.
Proof.
  intros Hc. unfold call, V2.maybe_uninit.bytes, V2.maybe_uninit.byte_type_const,
    V2.maybe_uninit.object_const; simpl. rewrite Hc. auto.
Qed.
End byte_view.

(** Four bytes written through the byte view of a cell that holds a
    [std::uint32_t] are read back through [ref] as the integer they
    represent on the target: least significant byte first on a
    little-endian target. *)
Lemma bytes_round_trip (e : endian) (self : handle) (w : world) (cl : cell)
    (b0 b1 b2 b3 : byte) :
  h_const self = false ->
  cells w !! h_addr self = Some cl ->
  live cl = true ->
  length (storage cl) = 4 ->
  write_bytes_then_read (int_payload e uint32_t) self [b0; b1; b2; b3] w =
    Some (Returned (Some (convert uint32_t (le_combine (byte_order e [b0; b1; b2; b3]))))).
Proof.
  intros Hh Hc Hlv Hl.
  unfold write_bytes_then_read, call, V2.maybe_uninit.bytes, V2.maybe_uninit.ref,
    V2.maybe_uninit.byte_type_const, V2.maybe_uninit.object_const, V2.detail.const_ref,
    deduce_Self, is_reference_v, is_const_v, remove_reference_t, span_write; simpl.
  rewrite Hh; simpl.
  destruct (h_cat self); simpl;
    unfold noexcept, bind, ret; simpl; rewrite Hc; simpl;
    unfold load; simpl; rewrite lookup_insert_eq; simpl;
    destruct (storage cl) as [|x0 [|x1 [|x2 [|x3 [|x4 l]]]]]; simpl in Hl; try discriminate;
    rewrite Hlv; simpl; rewrite ?orb_true_r; reflexivity.
Qed.

(** The example of the specification: on a little-endian target the bytes
    [67 45 23 01] read back as [0x01234567]. *)
Lemma bytes_round_trip_little_endian :
  write_bytes_then_read (int_payload little uint32_t) (this 1%N) pattern world_default =
    Some (Returned (Some (convert uint32_t 0x01234567))).
Proof. vm_compute. reflexivity. Qed.

(** C7, at the input where the code departs from it. On a const rvalue
    cell of [std::uint32_t], a handle that is const, [bytes] computes a
    view of non-const bytes and does not compile, so no const view comes
    back; [ptr] and [ref] on the same handle do compile and keep the
    const. *)
Theorem C7_bytes_refused_on_const_rvalue (e : endian) (a : addr) :
  V2.maybe_uninit.byte_type_const (int_payload e uint32_t) (const_rvalue a) = false /\
  call (V2.maybe_uninit.bytes (int_payload e uint32_t) (const_rvalue a)) = None /\
  (exists m, call (V2.maybe_uninit.ptr (int_payload e uint32_t) (const_rvalue a)) = Some m /\
             forall w, m w = (Returned {| p_addr := a; p_const := true |}, w)) /\
  (exists m, call (V2.maybe_uninit.ref (int_payload e uint32_t) (const_rvalue a)) = Some m /\
             forall w, m w = (Returned {| r_addr := a; r_const := true; r_cat := rvalue |}, w)).
Proof.
  split; [reflexivity|]. split; [reflexivity|].
  split; (eexists; split; [reflexivity|]; intros w; reflexivity).
Qed.

(** ** Copying and moving a cell *)


(** Moving a cell of [copy_first] compiles in both variants; moving a cell
    of [move_only] compiles in the earlier variant only; copying a cell of
    [NonTrivial], whose copy constructor is trivial and whose destructor
    is not, compiles in the later variant only. *)
Example moving_cells :
  compiles copy_first (V1_declarations copy_first) move_construct = true /\
  compiles copy_first V2_declarations move_construct = true /\
  compiles move_only (V1_declarations move_only) move_construct = true /\
  compiles move_only V2_declarations move_construct = false /\
  compiles (NonTrivial little) (V1_declarations (NonTrivial little)) copy_construct = false /\
  compiles (NonTrivial little) V2_declarations copy_construct = true.
Proof. repeat split. Qed.

Lemma int_special_members_ok (e : endian) (t : int_type) :
  special_members_ok (int_payload e t).
Proof. intros []; reflexivity. Qed.




(** ** Exception specifications *)

(** The earlier variant specifies its construction entry points with the
    traits of the standard library. *)
Lemma V1_construction_exception_specifications {Arg} (T : payload Arg)
    (kind : Arg -> argument_kind) (self : handle) (a : addr) (x : Arg) (args : list Arg) :
  fn_noexcept (V1.maybe_uninit.default_init T self) = is_nothrow_default_constructible T /\
  fn_noexcept (V1.maybe_uninit.ctor_default_init_tag_t T a) = is_nothrow_default_constructible T /\
  fn_noexcept (V1.maybe_uninit.ctor_value_init_tag_t T a) = is_nothrow_default_constructible T /\
  fn_noexcept (V1.default_init T a) = is_nothrow_default_constructible T /\
  fn_noexcept (V1.init_value T a) = is_nothrow_default_constructible T /\
  fn_noexcept (V1.maybe_uninit.init T self args) = is_nothrow_constructible T args /\
  fn_noexcept (V1.maybe_uninit.ctor_args T kind a x args)
    = is_nothrow_constructible T (x :: args) /\
  fn_noexcept (V1.init T kind a x args) = is_nothrow_constructible T (x :: args) /\
  fn_noexcept (V1.init_deduced T kind a x) = is_nothrow_constructible T [x] /\
  fn_noexcept (V1.init_auto T kind a x) = is_nothrow_constructible T [x].
Proof. repeat split. Qed.

Lemma Loud_std_nothrow_traits_ok (e : endian) : std_nothrow_traits_ok (Loud e).
Proof.
  split; [|reflexivity]. intros args. simpl.
  destruct args as [|x [|y l]]; simpl; now rewrite ?andb_false_r.
Qed.

Lemma NonTrivial_std_nothrow_traits_ok (e : endian) : std_nothrow_traits_ok (NonTrivial e).
Proof.
  split; [|reflexivity]. intros args. simpl.
  destruct args as [|x [|y l]]; reflexivity.
Qed.

(** C10 fails as stated for the earlier variant. [Loud(int)] is [noexcept]
    and [init(42)] on a cell of [Loud] compiles, but [init] is specified
    with [std::is_nothrow_constructible_v<Loud, int>], which is false
    because the destructor of [Loud] may throw: [init] is not
    [noexcept]. *)
Lemma C10_counterexample :
  well_formed (call (V1.maybe_uninit.init (Loud little) (this 1%N) [int_literal 42])) = true /\
  V2.detail.nothrow (Loud little) (new_paren (Loud little) [int_literal 42]) = true /\
  ~ noexcept_as_the_form (Loud little)
      (V1.maybe_uninit.init (Loud little) (this 1%N) [int_literal 42])
      (new_paren (Loud little) [int_literal 42]).
Proof.
  split; [reflexivity|]. split; [reflexivity|]. intros H. discriminate H.
Qed.

(** C10, amended. Where a construction strategy of the later variant is
    available for [T], with [c] the constructor form of [T] it selects,
    its member function, its tag constructor and its free functions are
    [noexcept] exactly when [c] is. Every construction entry point of the
    earlier variant (member function, constructor, free function) is
    [noexcept] exactly when the constructor form of [T] it is specified
    with, [T(args...)] or [T()], is [noexcept] and the destructor of [T]
    is as well. [destroy] and [destruct] are [noexcept] exactly when the
    destructor of [T] is; the constructor and the free function that
    leave the cell uninitialized, and the accessors [ptr], [ref],
    [assume_init] and [bytes], are [noexcept] unconditionally. *)
Theorem C10_exception_specifications {Arg} (T : payload Arg) (kind : Arg -> argument_kind)
    (self : handle) (a : addr) (tag : init_tag Arg) (c : ctor (obj T))
    (x : Arg) (args : list Arg) :
  fn_requires (V2_member T self tag) = true ->
  form T tag = Some c ->
  std_nothrow_traits_ok T ->
  (fn_noexcept (V2_member T self tag) = ctor_noexcept c /\
   fn_noexcept (V2_constructor T a tag) = ctor_noexcept c /\
   fn_noexcept (V2_free_function T a tag) = ctor_noexcept c /\
   (forall cat t, tag = paren_init_t [t] ->
      fn_noexcept (V2.paren_init_deduced T a cat t) = ctor_noexcept c) /\
   (forall cat t, tag = brace_init_t [t] ->
      fn_noexcept (V2.brace_init_deduced T a cat t) = ctor_noexcept c)) /\
  (fn_noexcept (V2.maybe_uninit.destroy T self) = is_nothrow_destructible T /\
   fn_noexcept (V1.maybe_uninit.destruct T self) = is_nothrow_destructible T) /\
  (fn_noexcept (V2.maybe_uninit.ctor a) = true /\
   fn_noexcept (V2.uninit a) = true /\
   fn_noexcept (V2.maybe_uninit.ptr T self) = true /\
   fn_noexcept (V2.maybe_uninit.ref T self) = true /\
   fn_noexcept (V2.maybe_uninit.bytes T self) = true /\
   fn_noexcept (V1.maybe_uninit.ctor a) = true /\
   fn_noexcept (V1.uninit a) = true /\
   fn_noexcept (V1.maybe_uninit.ptr T self) = true /\
   fn_noexcept (V1.maybe_uninit.assume_init T self) = true) /\
  (let value_form := V2.detail.nothrow T (new_paren T []) && is_nothrow_destructible T in
   let form_of l := V2.detail.nothrow T (new_paren T l) && is_nothrow_destructible T in
   fn_noexcept (V1.maybe_uninit.default_init T self) = value_form /\
   fn_noexcept (V1.maybe_uninit.ctor_default_init_tag_t T a) = value_form /\
   fn_noexcept (V1.maybe_uninit.ctor_value_init_tag_t T a) = value_form /\
   fn_noexcept (V1.default_init T a) = value_form /\
   fn_noexcept (V1.init_value T a) = value_form /\
   fn_noexcept (V1.maybe_uninit.init T self args) = form_of args /\
   fn_noexcept (V1.maybe_uninit.ctor_args T kind a x args) = form_of (x :: args) /\
   fn_noexcept (V1.init T kind a x args) = form_of (x :: args) /\
   fn_noexcept (V1.init_deduced T kind a x) = form_of [x] /\
   fn_noexcept (V1.init_auto T kind a x) = form_of [x]).
Proof.
  intros Hreq Hf [Hstd Hdef].
  assert (Hc : is_const T = false).
  { destruct tag; simpl in Hreq;
      unfold V2.detail.default_constructible, V2.detail.paren_constructible_from,
        V2.detail.brace_constructible_from in Hreq;
      apply andb_true_iff in Hreq as [Hn _]; now apply negb_true_iff in Hn. }
  split; [|split; [split; reflexivity|split; [repeat split|]]].
  - assert (Hn : form_noexcept T tag = ctor_noexcept c).
    { destruct tag; simpl in Hf; simpl;
        unfold V2.detail.nothrow_default_constructible,
          V2.detail.nothrow_paren_constructible_from,
          V2.detail.nothrow_brace_constructible_from;
        rewrite Hf, Hc; reflexivity. }
    split; [|split; [|split; [|split]]].
    + rewrite <- Hn. destruct tag; reflexivity.
    + rewrite <- Hn. destruct tag; reflexivity.
    + rewrite <- Hn. destruct tag; reflexivity.
    + intros cat t ->. rewrite <- Hn. reflexivity.
    + intros cat t ->. rewrite <- Hn. reflexivity.
  - cbv zeta.
    destruct (V1_construction_exception_specifications T kind self a x args)
      as (H1 & H2 & H3 & H4 & H5 & H6 & H7 & H8 & H9 & H10).
    rewrite H1, H2, H3, H4, H5, H6, H7, H8, H9, H10, Hdef, !Hstd.
    repeat split.
Qed.

Lemma C10_exception_specifications_witness :
  let T := Loud little in
  let tag := paren_init_t [int_literal 42] in
  let c := noexcept_value (Some (convert int 42)) in
  fn_requires (V2_member T (this 1%N) tag) = true /\
  form T tag = Some c /\
  std_nothrow_traits_ok T /\
  fn_noexcept (V2_member T (this 1%N) tag) = true /\
  fn_noexcept (V2_constructor T 1%N tag) = true /\
  fn_noexcept (V2_free_function T 1%N tag) = true /\
  fn_noexcept (V1.maybe_uninit.init T (this 1%N) [int_literal 42]) = false /\
  fn_noexcept (V1.init T int_kind 1%N (int_literal 42) []) = false /\
  fn_noexcept (V2.maybe_uninit.destroy T (this 1%N)) = false.
Proof.
  intros T tag c.
  split; [reflexivity|]. split; [reflexivity|]. split; [apply Loud_std_nothrow_traits_ok|].
  destruct (C10_exception_specifications T int_kind (this 1%N) 1%N tag c (int_literal 42)
              [int_literal 42] eq_refl eq_refl (Loud_std_nothrow_traits_ok little))
    as ((H1 & H2 & H3 & _) & (H4 & _) & _ & (_ & _ & _ & _ & _ & H5 & _ & _ & _)).
  repeat split; try assumption.
Defined.

(** * Further properties of the header *)

(** ** Invariants of sequences of operations *)

(** A construction strategy of the later variant that compiles is the
    new-expression of some initialisation form under an exception
    specification. *)
Lemma V2_member_shape {Arg} (T : payload Arg) (self : handle) (tag : init_tag Arg)
    (n : M reference) :
  call (V2_member T self tag) = Some n ->
  exists b c, n = noexcept b (let! p := placement_new T c (h_addr self) in ret (deref p)).
Proof.
  destruct tag as [|args|args]; unfold V2_member, call; simpl;
    unfold V2.maybe_uninit.new_object.
  - destruct (V2.detail.default_constructible T); [|discriminate].
    destruct (new_default T) as [c|]; [|discriminate].
    destruct (V2.maybe_uninit.object_const T self); [discriminate|].
    intros [= <-]; eauto.
  - destruct (V2.detail.paren_constructible_from T args); [|discriminate].
    destruct (new_paren T args) as [c|]; [|discriminate].
    destruct (V2.maybe_uninit.object_const T self); [discriminate|].
    intros [= <-]; eauto.
  - destruct (V2.detail.brace_constructible_from T args); [|discriminate].
    destruct (new_brace T args) as [c|]; [|discriminate].
    destruct (V2.maybe_uninit.object_const T self); [discriminate|].
    intros [= <-]; eauto.
Qed.

Section keeping.
Context (P : world -> Prop).

Lemma keeps_ret {A} (x : A) : keeps P (ret x).
Proof. intros w Hw. exact Hw. Qed.

Lemma keeps_bind {A B} (m : M A) (k : A -> M B) :
  keeps P m -> (forall x, keeps P (k x)) -> keeps P (bind m k).
Proof.
  intros Hm Hk w Hw. unfold bind. specialize (Hm w Hw).
  destruct (m w) as [[x|e| |] w']; simpl in *; try assumption.
  now apply Hk.
Qed.

Lemma keeps_noexcept {A} (b : bool) (m : M A) : keeps P m -> keeps P (noexcept b m).
Proof.
  intros Hm w Hw. unfold noexcept. specialize (Hm w Hw).
  now destruct (m w) as [o w'].
Qed.

Lemma keeps_discard {A} (m : M A) : keeps P m -> keeps P (discard m).
Proof. intros Hm. apply keeps_bind; [assumption|]. intros x. apply keeps_ret. Qed.

Lemma keeps_call {A} (f : fn A) (m n : M A) :
  fn_body f = Some n -> keeps P n -> call f = Some m -> keeps P m.
Proof.
  unfold call. intros -> Hn. destruct (fn_requires f); [|discriminate].
  intros [= <-]. now apply keeps_noexcept.
Qed.

Lemma keeps_and_then {A B} (p : option (M A)) (q : option (M B)) (r : M B) :
  (forall m, p = Some m -> keeps P m) ->
  (forall n, q = Some n -> keeps P n) ->
  and_then p q = Some r -> keeps P r.
Proof.
  intros Hp Hq. unfold and_then.
  destruct p as [m|]; [|discriminate]. destruct q as [n|]; [|discriminate].
  simpl. intros [= <-]. apply keeps_bind; [now apply Hp|]. intros _. now apply Hq.
Qed.

Context {Arg : Type} (T : payload Arg) (self : handle).
Context (Hnew : forall c, keeps P (placement_new T c (h_addr self))).

(** A property kept by the new-expression and by [std::destroy_at] on the
    cell is kept by every member function of the later variant. *)
Lemma V2_step_keeps (op : operation Arg) (m : M unit) :
  (is_destroy op = true -> keeps P (destroy_at T (h_addr self))) ->
  V2_step T self op = Some m -> keeps P m.
Proof.
  intros Hdel.
  destruct op as [tag| | | |]; simpl.
  - destruct (call (V2_member T self tag)) as [n|] eqn:Hn; [|discriminate].
    simpl. intros [= <-]. apply keeps_discard.
    destruct (V2_member_shape T self tag n Hn) as (b & c & ->).
    apply keeps_noexcept, keeps_bind; auto using keeps_ret.
  - unfold call; simpl.
    destruct (is_trivially_destructible T); simpl.
    + intros [= <-]. apply keeps_noexcept, keeps_ret.
    + destruct (is_destructible T); [|discriminate].
      intros [= <-]. apply keeps_noexcept. now apply Hdel.
  - unfold call; simpl. intros [= <-]. apply keeps_discard, keeps_noexcept, keeps_ret.
  - unfold call; simpl. intros [= <-]. apply keeps_discard, keeps_noexcept, keeps_ret.
  - unfold call; simpl.
    destruct (V2.maybe_uninit.object_const T self && negb (V2.maybe_uninit.byte_type_const T self));
      [discriminate|].
    simpl. intros [= <-]. apply keeps_discard, keeps_noexcept, keeps_ret.
Qed.

Lemma V2_run_keeps (ops : list (operation Arg)) (m : M unit) :
  keeps P (destroy_at T (h_addr self)) ->
  V2_run T self ops = Some m -> keeps P m.
Proof.
  intros Hdel. revert m. induction ops as [|op rest IH]; simpl; intros m.
  - intros [= <-]. apply keeps_ret.
  - apply keeps_and_then; [intros n; now apply V2_step_keeps|exact IH].
Qed.
End keeping.

Lemma only_cell_changed_refl (a : addr) (w : world) : only_cell_changed a w w.
Proof. split; [reflexivity|]. intros b _. reflexivity. Qed.

Lemma only_cell_changed_set_cell (a : addr) (c : cell) (w0 w : world) :
  is_Some (cells w !! a) ->
  only_cell_changed a w0 w -> only_cell_changed a w0 (set_cell a c w).
Proof.
  intros Hs [Hd Ho]. split; simpl.
  - rewrite <- Hd. now apply dom_insert_lookup_L.
  - intros b Hb. rewrite lookup_insert_ne by congruence. now apply Ho.
Qed.

Lemma placement_new_only_cell {Arg} (T : payload Arg) (c : ctor (obj T)) (a : addr)
    (w0 : world) :
  keeps (only_cell_changed a w0) (placement_new T c a).
Proof.
  intros w Hw. unfold placement_new.
  destruct (cells w !! a) as [cl|] eqn:Hc; [|exact Hw].
  destruct (enforce (ctor_noexcept c) (ctor_run c)) as [[v|]|e| |]; simpl;
    try exact Hw; (apply only_cell_changed_set_cell; [rewrite Hc; eauto|exact Hw]).
Qed.

Lemma destroy_at_only_cell {Arg} (T : payload Arg) (a : addr) (w0 : world) :
  keeps (only_cell_changed a w0) (destroy_at T a).
Proof.
  intros w Hw. unfold destroy_at.
  destruct (cells w !! a) as [cl|] eqn:Hc; [|exact Hw].
  destruct (is_trivially_destructible T); [exact Hw|].
  destruct (live cl); [|exact Hw].
  destruct (decode T (storage cl)); [|exact Hw].
  simpl. apply (only_cell_changed_set_cell a _ w0 w); [rewrite Hc; eauto|exact Hw].
Qed.

(** X1. Whatever member functions of the later variant are called on a
    cell, in whatever order and however the calls end, no cell comes into
    existence or goes away and every other cell keeps its contents: the
    header allocates nothing and writes nowhere but into the cell's own
    storage. *)
Theorem X1_operations_touch_one_cell {Arg} (T : payload Arg) (self : handle)
    (ops : list (operation Arg)) (m : M unit) (w : world) :
  V2_run T self ops = Some m ->
  only_cell_changed (h_addr self) w (snd (m w)).
Proof.
  intros Hm.
  apply (V2_run_keeps (only_cell_changed (h_addr self) w) T self
           (fun c => placement_new_only_cell T c _ w) ops m
           (destroy_at_only_cell T _ w) Hm).
  apply only_cell_changed_refl.
Qed.

(** X2. Whatever member functions of the later variant are called on a
    cell whose storage has [sizeof(T)] bytes, the storage has [sizeof(T)]
    bytes afterwards. *)
Theorem X2_operations_keep_storage_size {Arg} (T : payload Arg) (self : handle)
    (ops : list (operation Arg)) (m : M unit) (w : world) :
  payload_ok T ->
  V2_run T self ops = Some m ->
  storage_fits T w (h_addr self) ->
  storage_fits T (snd (m w)) (h_addr self).
Proof.
  intros HT Hm.
  apply (V2_run_keeps (fun w => storage_fits T w (h_addr self)) T self
           (fun c w => placement_new_storage_fits T HT c _ w) ops m
           (fun w => destroy_at_storage_fits T _ w) Hm).
Qed.

Lemma X1_operations_touch_one_cell_witness :
  exists m,
    V2_run (NonTrivial little) (this 1%N) example_ops = Some m /\
    only_cell_changed (h_addr (this 1%N)) world0 (snd (m world0)).
Proof.
  assert (exists m, V2_run (NonTrivial little) (this 1%N) example_ops = Some m)
    as [m Hm] by (eexists; reflexivity).
  exists m. split; [exact Hm|].
  exact (X1_operations_touch_one_cell (NonTrivial little) (this 1%N) example_ops
           m world0 Hm).
Defined.

Lemma X2_operations_keep_storage_size_witness :
  exists m,
    payload_ok (NonTrivial little) /\
    V2_run (NonTrivial little) (this 1%N) example_ops = Some m /\
    storage_fits (NonTrivial little) world0 (h_addr (this 1%N)) /\
    storage_fits (NonTrivial little) (snd (m world0)) (h_addr (this 1%N)).
Proof.
  assert (exists m, V2_run (NonTrivial little) (this 1%N) example_ops = Some m)
    as [m Hm] by (eexists; reflexivity).
  assert (Hs : storage_fits (NonTrivial little) world0 (h_addr (this 1%N)))
    by (exists cell0; split; reflexivity).
  exists m. split; [apply NonTrivial_ok|]. split; [exact Hm|]. split; [exact Hs|].
  exact (X2_operations_keep_storage_size (NonTrivial little) (this 1%N) example_ops
           m world0 (NonTrivial_ok little) Hm Hs).
Defined.

(** ** How often the destructor runs *)

Lemma destructor_calls_log_at (a b : addr) (w : world) :
  destructor_calls b (log (destructor_call a) w) =
    (destructor_calls b w + if N.eqb b a then 1 else 0)%nat.
Proof.
  unfold destructor_calls, log; simpl.
  rewrite List.filter_app, length_app; simpl.
  destruct (N.eqb b a); simpl; lia.
Qed.

Lemma and_then_Some {A B} (p : option (M A)) (q : option (M B)) (r : M B) :
  and_then p q = Some r ->
  exists m n, p = Some m /\ q = Some n /\ r = (let! _ := m in n).
Proof.
  unfold and_then. destruct p as [m|]; [|discriminate].
  destruct q as [n|]; [|discriminate]. simpl. intros [= <-]. eauto.
Qed.

Lemma bind_returned {A B} (m : M A) (k : A -> M B) (w w' : world) (y : B) :
  bind m k w = (Returned y, w') ->
  exists x w1, m w = (Returned x, w1) /\ k x w1 = (Returned y, w').
Proof.
  unfold bind. destruct (m w) as [[x|e| |] w1]; try discriminate. eauto.
Qed.

Lemma noexcept_returned_inv {A} (b : bool) (m : M A) (w w' : world) (x : A) :
  noexcept b m w = (Returned x, w') -> m w = (Returned x, w').
Proof.
  unfold noexcept. destruct (m w) as [[y|e| |] w1]; simpl; try discriminate.
  - now intros [= <- <-].
  - destruct b; discriminate.
Qed.

Section counting.
Context {Arg : Type} (T : payload Arg) (self : handle) (b : addr).

Lemma placement_new_no_destructor (c : ctor (obj T)) (w0 : world) :
  keeps (fun w => destructor_calls b w = destructor_calls b w0)
        (placement_new T c (h_addr self)).
Proof.
  intros w Hw. unfold placement_new.
  destruct (cells w !! h_addr self); [|exact Hw].
  destruct (enforce (ctor_noexcept c) (ctor_run c)) as [[v|]|e| |]; exact Hw.
Qed.

(** One completed call runs the destructor once if it is [destroy] on a
    payload that is not trivially destructible, and not at all
    otherwise. *)
Lemma V2_step_destructor_calls (op : operation Arg) (m : M unit) (w w' : world) :
  V2_step T self op = Some m ->
  m w = (Returned tt, w') ->
  destructor_calls b w' =
    (destructor_calls b w +
     if is_destroy op && negb (is_trivially_destructible T) && N.eqb b (h_addr self)
     then 1 else 0)%nat.
Proof.
  intros Hm Hr.
  destruct (is_destroy op) eqn:Hop.
  - destruct op; try discriminate. simpl in *.
    unfold call in Hm; simpl in Hm.
    destruct (is_trivially_destructible T) eqn:Ht; simpl in *.
    + injection Hm as <-. apply noexcept_returned_inv in Hr. injection Hr as <-. lia.
    + destruct (is_destructible T); [|discriminate]. injection Hm as <-.
      apply noexcept_returned_inv in Hr. unfold destroy_at in Hr. rewrite Ht in Hr.
      destruct (cells w !! h_addr self) as [cl|]; [|discriminate].
      destruct (live cl); [|discriminate].
      destruct (decode T (storage cl)); [|discriminate].
      injection Hr as _ <-. rewrite destructor_calls_log_at, destructor_calls_set_cell.
      reflexivity.
  - simpl. rewrite Nat.add_0_r.
    assert (Hk : keeps (fun w1 => destructor_calls b w1 = destructor_calls b w) m).
    { apply (V2_step_keeps _ T self (fun c => placement_new_no_destructor c w) op m);
        [congruence|exact Hm]. }
    specialize (Hk w eq_refl). now rewrite Hr in Hk.
Qed.

(** X3. In a sequence of member functions of the later variant that
    completes on a cell, the destructor of a payload type that is not
    trivially destructible has run on that cell exactly once for each
    [destroy] in the sequence; a trivially destructible payload's never
    runs, and no call runs a destructor on any other cell. Construction
    over a live value, in particular, does not destroy it. *)
Theorem X3_one_destructor_per_destroy (ops : list (operation Arg)) (m : M unit)
    (w w' : world) :
  V2_run T self ops = Some m ->
  m w = (Returned tt, w') ->
  destructor_calls b w' =
    (destructor_calls b w +
     if negb (is_trivially_destructible T) && N.eqb b (h_addr self)
     then length (List.filter is_destroy ops) else 0)%nat.
Proof.
  revert m w. induction ops as [|op rest IH]; simpl; intros m w Hm Hr.
  - injection Hm as <-. injection Hr as <-.
    destruct (negb (is_trivially_destructible T) && N.eqb b (h_addr self)); simpl; lia.
  - destruct (and_then_Some _ _ _ Hm) as (m1 & n & H1 & Hn & ->).
    destruct (bind_returned _ _ _ _ _ Hr) as ([] & w1 & Hr1 & Hr2).
    rewrite (IH n w1 Hn Hr2), (V2_step_destructor_calls op m1 w w1 H1 Hr1).
    destruct (is_destroy op), (negb (is_trivially_destructible T)),
      (N.eqb b (h_addr self)); simpl; lia.
Qed.
End counting.

Lemma X3_one_destructor_per_destroy_witness :
  exists m w',
    V2_run (NonTrivial little) (this 1%N) example_ops = Some m /\
    m world0 = (Returned tt, w') /\
    destructor_calls 1%N w' =
      (destructor_calls 1%N world0 +
       if negb (is_trivially_destructible (NonTrivial little)) && N.eqb 1%N (h_addr (this 1%N))
       then length (List.filter is_destroy example_ops) else 0)%nat.
Proof.
  assert (exists m w', V2_run (NonTrivial little) (this 1%N) example_ops = Some m /\
                       m world0 = (Returned tt, w'))
    as (m & w' & Hm & Hr)
    by (eexists; eexists; split; [reflexivity|vm_compute; reflexivity]).
  exists m, w'. split; [exact Hm|]. split; [exact Hr|].
  exact (X3_one_destructor_per_destroy (NonTrivial little) (this 1%N) 1%N example_ops
           m world0 w' Hm Hr).
Defined.

(** ** Exceptions of the payload's constructor *)

Lemma same_behaviour_Some {A} (p : option (M A)) (n : M A) :
  same_behaviour p (Some n) -> exists m, p = Some m /\ forall w, m w = n w.
Proof. destruct p as [m|]; simpl; [eauto|tauto]. Qed.

(** X4. When the constructor that a strategy of the later variant selects
    is not [noexcept] and throws, the member function, the tag
    constructor and the free function of the strategy all end with that
    same exception: none of them ends the program or swallows it. No
    destructor runs and the cell holds no live object afterwards. *)
Theorem X4_constructor_exception_propagates {Arg} (T : payload Arg) (self : handle)
    (tag : init_tag Arg) (w : world) (cl : cell) (c : ctor (obj T)) (e : exn) :
  h_const self = false ->
  is_const T = false ->
  cells w !! h_addr self = Some cl ->
  form T tag = Some c ->
  ctor_noexcept c = false ->
  ctor_run c = Thrown e ->
  exists mm mc mf w',
    call (V2_member T self tag) = Some mm /\ mm w = (Thrown e, w') /\
    call (V2_constructor T (h_addr self) tag) = Some mc /\ mc w = (Thrown e, w') /\
    call (V2_free_function T (h_addr self) tag) = Some mf /\ mf w = (Thrown e, w') /\
    trace w' = trace w /\
    exists cl', cells w' !! h_addr self = Some cl' /\ live cl' = false.
Proof.
  intros Hh Hc Hw Hf Hn Hr.
  pose (w' := set_cell (h_addr self)
                {| storage := storage cl; live := false; determinate := false |} w).
  assert (Hnew : noexcept (ctor_noexcept c)
            (let! p := placement_new T c (h_addr self) in ret (deref p)) w = (Thrown e, w')).
  { unfold noexcept, bind, placement_new. rewrite Hw, Hr, Hn. reflexivity. }
  pose proof (V2_member_call T (this (h_addr self)) tag c eq_refl Hc Hf) as Hthis.
  assert (Htwo : exists n, two_steps T (h_addr self) tag = Some n /\ n w = (Thrown e, w')).
  { unfold two_steps, and_then. rewrite Hthis. simpl. eexists. split; [reflexivity|].
    change ((discard (noexcept (ctor_noexcept c)
               (let! p := placement_new T c (h_addr self) in ret (deref p)))) w
            = (Thrown e, w')).
    unfold discard, bind at 1. now rewrite Hnew. }
  destruct Htwo as (n & Hn2 & Hrun).
  pose proof (V2_constructor_two_steps T (h_addr self) tag) as Hctor. rewrite Hn2 in Hctor.
  destruct (same_behaviour_Some _ _ Hctor) as (mc & Hmc & Hmcw).
  pose proof (V2_free_function_constructor T (h_addr self) tag) as Hfree.
  rewrite Hmc in Hfree.
  destruct (same_behaviour_Some _ _ Hfree) as (mf & Hmf & Hmfw).
  rewrite (V2_member_call T self tag c Hh Hc Hf).
  eexists _, mc, mf, w'. split; [reflexivity|]. split; [exact Hnew|].
  split; [exact Hmc|]. split; [now rewrite Hmcw|].
  split; [exact Hmf|]. split; [now rewrite Hmfw, Hmcw|].
  split; [reflexivity|].
  eexists. split; [apply lookup_insert_eq|reflexivity].
Qed.

Lemma X4_constructor_exception_propagates_witness :
  let c := {| ctor_noexcept := false; ctor_run := @Thrown (option (int_rep int)) 1%nat |} in
  h_const (this 1%N) = false /\
  is_const (Checked little) = false /\
  cells world0 !! h_addr (this 1%N) = Some cell0 /\
  form (Checked little) (paren_init_t [int_literal (-1)]) = Some c /\
  ctor_noexcept c = false /\
  ctor_run c = Thrown 1%nat /\
  exists mm mc mf w',
    call (V2_member (Checked little) (this 1%N) (paren_init_t [int_literal (-1)])) = Some mm /\
    mm world0 = (Thrown 1%nat, w') /\
    call (V2_constructor (Checked little) (h_addr (this 1%N))
            (paren_init_t [int_literal (-1)])) = Some mc /\
    mc world0 = (Thrown 1%nat, w') /\
    call (V2_free_function (Checked little) (h_addr (this 1%N))
            (paren_init_t [int_literal (-1)])) = Some mf /\
    mf world0 = (Thrown 1%nat, w') /\
    trace w' = trace world0 /\
    exists cl', cells w' !! h_addr (this 1%N) = Some cl' /\ live cl' = false.
Proof.
  intros c.
  split; [reflexivity|]. split; [reflexivity|]. split; [reflexivity|].
  split; [reflexivity|]. split; [reflexivity|]. split; [reflexivity|].
  apply (X4_constructor_exception_propagates (Checked little) (this 1%N)
           (paren_init_t [int_literal (-1)]) world0 cell0 c 1%nat); reflexivity.
Defined.

(** ** The earlier variant never runs a destructor *)

Lemma destroy_at_trivial_keeps {Arg} (T : payload Arg) (a : addr) (P : world -> Prop) :
  is_trivially_destructible T = true -> keeps P (destroy_at T a).
Proof.
  intros Ht w Hw. unfold destroy_at. rewrite Ht.
  now destruct (cells w !! a).
Qed.

Section V1_keeping.
Context (P : world -> Prop) {Arg : Type} (T : payload Arg) (self : handle).
Context (Hnew : forall c, keeps P (placement_new T c (h_addr self))).

Lemma V1_destruct_keeps (s : handle) (m : M unit) :
  h_addr s = h_addr self ->
  call (V1.maybe_uninit.destruct T s) = Some m -> keeps P m.
Proof.
  intros Hs. unfold call, V1.maybe_uninit.destruct; simpl.
  destruct (V1.maybe_uninit.non_const_member s); [|discriminate].
  destruct (is_destructible T); [|discriminate].
  destruct (is_trivially_destructible T) eqn:Ht; intros [= <-]; apply keeps_noexcept.
  - now apply destroy_at_trivial_keeps.
  - apply keeps_ret.
Qed.

(** A property kept by the new-expression on the cell is kept by every
    member function of the earlier variant and by the end of the cell's
    lifetime, since [std::destroy_at] is reached for trivial destructors
    only. *)
Lemma V1_step_keeps (op : V1_operation Arg) (m : M unit) :
  V1_step T self op = Some m -> keeps P m.
Proof.
  destruct op as [|args| | | |flag]; simpl.
  - unfold call; simpl.
    destruct (V1.maybe_uninit.non_const_member self); [|discriminate].
    destruct (new_default T) as [c|]; [|discriminate].
    intros [= <-]. apply keeps_noexcept, keeps_discard, Hnew.
  - unfold call; simpl.
    destruct (V1.maybe_uninit.non_const_member self); [|discriminate].
    destruct (new_paren T args) as [c|]; [|discriminate].
    intros [= <-]. apply keeps_noexcept, keeps_discard, Hnew.
  - now apply V1_destruct_keeps.
  - unfold call; simpl. intros [= <-]. apply keeps_discard, keeps_noexcept, keeps_ret.
  - unfold call; simpl. intros [= <-]. apply keeps_discard, keeps_noexcept, keeps_ret.
  - unfold call at 1; simpl.
    destruct (is_trivially_destructible T); [intros [= <-]; apply keeps_noexcept, keeps_ret|].
    destruct flag; [|intros [= <-]; apply keeps_noexcept, keeps_ret].
    destruct (is_destructible T); [|discriminate].
    destruct (call (V1.maybe_uninit.destruct T (this (h_addr self)))) as [d|] eqn:Hd;
      [|discriminate].
    intros [= <-]. apply keeps_noexcept.
    now apply (V1_destruct_keeps (this (h_addr self)) d).
Qed.

Lemma V1_run_keeps (ops : list (V1_operation Arg)) (m : M unit) :
  V1_run T self ops = Some m -> keeps P m.
Proof.
  revert m. induction ops as [|op rest IH]; simpl; intros m.
  - intros [= <-]. apply keeps_ret.
  - apply keeps_and_then; [apply V1_step_keeps|exact IH].
Qed.
End V1_keeping.

(** X5. Whatever member functions of the earlier variant are called on a
    cell, in whatever order, and whether or not its lifetime ends with
    [SELF_DESTRUCT] set, no destructor of the payload type ever runs: an
    object constructed in a cell of that variant is never destroyed by
    the header. The calls touch no other cell either. *)
Theorem X5_V1_never_runs_a_destructor {Arg} (T : payload Arg) (self : handle)
    (ops : list (V1_operation Arg)) (m : M unit) (w : world) :
  V1_run T self ops = Some m ->
  trace (snd (m w)) = trace w /\
  only_cell_changed (h_addr self) w (snd (m w)).
Proof.
  intros Hm. split.
  - apply (V1_run_keeps (fun w' => trace w' = trace w) T self) with (ops := ops);
      [|exact Hm|reflexivity].
    intros c w1 Hw1. unfold placement_new.
    destruct (cells w1 !! h_addr self); [|exact Hw1].
    destruct (enforce (ctor_noexcept c) (ctor_run c)) as [[v|]|e| |]; exact Hw1.
  - apply (V1_run_keeps (only_cell_changed (h_addr self) w) T self
             (fun c => placement_new_only_cell T c _ w) ops m Hm).
    apply only_cell_changed_refl.
Qed.

Lemma X5_V1_never_runs_a_destructor_witness :
  exists m,
    V1_run (NonTrivial little) (this 1%N) example_V1_ops = Some m /\
    trace (snd (m world0)) = trace world0 /\
    only_cell_changed (h_addr (this 1%N)) world0 (snd (m world0)).
Proof.
  assert (exists m, V1_run (NonTrivial little) (this 1%N) example_V1_ops = Some m)
    as [m Hm] by (eexists; reflexivity).
  exists m. split; [exact Hm|].
  exact (X5_V1_never_runs_a_destructor (NonTrivial little) (this 1%N) example_V1_ops
           m world0 Hm).
Defined.

(** ** Construction at creation time in the earlier variant *)

Section V1_construction.
Context {Arg : Type} (T : payload Arg) (kind : Arg -> argument_kind).





(** X7. The free functions [init(t)] and [init_auto(t)] of the earlier
    variant, which deduce the payload type from their argument, do not
    compile when the argument is one of the tags; for an argument of
    another type they are accepted exactly when creating an uninitialized
    cell and calling [init(t)] on it is, and end in the same way in the
    same world. At the end of the lifetime of the cell that [init_auto]
    returns, for a payload type that is not trivially destructible,
    [destruct()] is called on it once, so that the block compiles only
    for a destructible payload type; for a trivially destructible one
    nothing is called. *)
Theorem X7_V1_deducing_functions (a : addr) (t : Arg) :
  (is_tag (kind t) = true ->
   call (V1.init_deduced T kind a t) = None /\
   call (V1.init_auto T kind a t) = None) /\
  (kind t = another ->
   same_behaviour (call (V1.init_deduced T kind a t))
                  (V1_two_steps a (V1.maybe_uninit.init T (this a) [t])) /\
   same_behaviour (call (V1.init_auto T kind a t))
                  (V1_two_steps a (V1.maybe_uninit.init T (this a) [t])) /\
   (is_trivially_destructible T = false ->
    same_behaviour (V1_init_auto_block T kind a t)
                   (and_then (V1_two_steps a (V1.maybe_uninit.init T (this a) [t]))
                             (call (V1.maybe_uninit.destruct T (this a))))) /\
   (is_trivially_destructible T = true ->
    same_behaviour (V1_init_auto_block T kind a t)
                   (V1_two_steps a (V1.maybe_uninit.init T (this a) [t])))).
Proof.
  split.
  - intros Ht. unfold call, V1.init_deduced, V1.init_auto, V1.detail.not_tag; simpl.
    now rewrite Ht.
  - intros Hk.
    assert (Hcall : forall f, fn_requires f = true ->
              fn_noexcept f = is_nothrow_constructible T [t] ->
              fn_body f = (if V1.detail.not_tag kind [t] then
                             if V1.detail.constructible_from T [t]
                             then V1.maybe_uninit.construct T kind a t [] else None
                           else None) ->
              same_behaviour (call f)
                (V1_two_steps a (V1.maybe_uninit.init T (this a) [t]))).
    { intros f Hreq Hne Hbody. unfold call at 1. rewrite Hreq, Hne, Hbody.
      unfold V1.detail.not_tag, V1.maybe_uninit.construct; simpl. rewrite Hk; simpl.
      unfold V1_two_steps, and_then.
      repeat (unfold call, V1.detail.constructible_from; cbn).
      rewrite Hk; cbn.
      destruct (new_paren T [t]); cbn; [|exact I].
      intros w. now rewrite !noexcept_idem. }
    split; [now apply Hcall|]. split; [now apply Hcall|].
    split; intros Hn; unfold V1_init_auto_block, V1_two_steps, and_then;
      repeat (unfold call, V1.detail.constructible_from, V1.detail.not_tag,
                V1.maybe_uninit.construct; cbn);
      rewrite Hk, Hn; cbn.
    + destruct (new_paren T [t]); cbn; [|exact I].
      destruct (is_destructible T); cbn; [|exact I].
      intros w. unfold bind, noexcept, discard, bind, ret.
      destruct (placement_new T c a w) as [[p|e| |] w1];
        destruct (is_nothrow_constructible T [t]), (is_nothrow_destructible T); reflexivity.
    + destruct (new_paren T [t]); cbn; [|exact I].
      intros w. unfold bind, noexcept, discard, bind, ret.
      destruct (placement_new T c a w) as [[p|e| |] w1];
        destruct (is_nothrow_constructible T [t]), (is_nothrow_destructible T); reflexivity.
Qed.
End V1_construction.


Lemma X7_V1_deducing_functions_witness :
  int_kind (int_literal 42) = another /\
  is_trivially_destructible (NonTrivial little) = false /\
  same_behaviour
    (V1_init_auto_block (NonTrivial little) int_kind 1%N (int_literal 42))
    (and_then (V1_two_steps 1%N (V1.maybe_uninit.init (NonTrivial little) (this 1%N)
                                   [int_literal 42]))
              (call (V1.maybe_uninit.destruct (NonTrivial little) (this 1%N)))).
Proof.
  split; [reflexivity|]. split; [reflexivity|].
  destruct (X7_V1_deducing_functions (NonTrivial little) int_kind 1%N (int_literal 42))
    as [_ H].
  destruct (H eq_refl) as (_ & _ & H3 & _).
  exact (H3 eq_refl).
Defined.

(** ** Default initialisation and value initialisation *)

Lemma le_split_zero (n : nat) : le_split n 0 = repeat Byte.x00 n.
Proof.
  induction n as [|n IH]; [reflexivity|].
  change (le_split (S n) 0) with (byte.of_Z 0 :: le_split n (Z.shiftr 0 8)).
  rewrite Z.shiftr_0_l, IH. reflexivity.
Qed.

Lemma rev_repeat {A} (x : A) (n : nat) : rev (repeat x n) = repeat x n.
Proof.
  induction n as [|n IH]; [reflexivity|]. simpl. rewrite IH.
  clear IH. induction n as [|n IH]; [reflexivity|]. simpl. now rewrite IH.
Qed.

(** The object representation of the integer zero is all zero bytes. *)
Lemma int_encode_zero (e : endian) (t : int_type) :
  int_encode e t (convert t 0) = repeat Byte.x00 (Pos.to_nat (int_bytes t)).
Proof.
  pose proof (int_word_ok t) as Hok.
  unfold int_encode, convert. rewrite word.unsigned_of_Z_0, le_split_zero.
  destruct e; simpl; [reflexivity|apply rev_repeat].
Qed.

(** X8. On a cell of an integer type, default initialisation ([new (p) T],
    through [default_init] of either variant) starts the lifetime of an
    integer whose value is indeterminate, whatever the cell held before:
    no value can be read through the reference that comes back.
    Initialisation with empty parentheses or empty braces ([paren_init()],
    [brace_init()], the earlier variant's [init()]) gives the integer
    zero. *)
Theorem X8_default_init_is_indeterminate (e : endian) (t : int_type) (self : handle)
    (w : world) (cl : cell) :
  h_const self = false ->
  cells w !! h_addr self = Some cl ->
  let T := int_payload e t in
  let r := {| r_addr := h_addr self; r_const := false; r_cat := lvalue |} in
  (exists m w', call (V2.maybe_uninit.default_init T self) = Some m /\
                m w = (Returned r, w') /\ load T w' r = None /\
                exists cl', cells w' !! h_addr self = Some cl' /\ live cl' = true) /\
  (exists m w', call (V1.maybe_uninit.default_init T self) = Some m /\
                m w = (Returned tt, w') /\ load T w' r = None /\
                exists cl', cells w' !! h_addr self = Some cl' /\ live cl' = true) /\
  (exists m w', call (V2.maybe_uninit.paren_init T self []) = Some m /\
                m w = (Returned r, w') /\ load T w' r = Some (convert t 0)) /\
  (exists m w', call (V2.maybe_uninit.brace_init T self []) = Some m /\
                m w = (Returned r, w') /\ load T w' r = Some (convert t 0)) /\
  (exists m w', call (V1.maybe_uninit.init T self []) = Some m /\
                m w = (Returned tt, w') /\ load T w' r = Some (convert t 0)) /\
  int_value t (convert t 0) = 0%Z.
Proof.
  intros Hh Hw T r.
  assert (Hload : forall b, load T (set_cell (h_addr self)
                      {| storage := int_encode e t (convert t 0); live := true;
                         determinate := true |} b) r = Some (convert t 0)).
  { intros b. unfold load, set_cell; simpl. rewrite lookup_insert_eq; simpl.
    apply int_decode_encode. }
  assert (Hnone : forall b, load T (set_cell (h_addr self)
                      {| storage := storage cl; live := true; determinate := false |} b) r
                    = None).
  { intros b. unfold load, set_cell; simpl. now rewrite lookup_insert_eq. }
  split; [|split; [|split; [|split; [|split]]]].
  - unfold call, V2.maybe_uninit.default_init, V2.maybe_uninit.new_object,
      V2.maybe_uninit.object_const; simpl. rewrite Hh; simpl.
    eexists _, _. split; [reflexivity|].
    unfold noexcept, bind, placement_new; simpl. rewrite Hw; simpl.
    split; [reflexivity|]. split; [apply Hnone|].
    eexists. split; [apply lookup_insert_eq|reflexivity].
  - unfold call, V1.maybe_uninit.default_init, V1.maybe_uninit.non_const_member; simpl.
    rewrite Hh; simpl.
    eexists _, _. split; [reflexivity|].
    unfold noexcept, discard, bind, placement_new; simpl. rewrite Hw; simpl.
    split; [reflexivity|]. split; [apply Hnone|].
    eexists. split; [apply lookup_insert_eq|reflexivity].
  - unfold call, V2.maybe_uninit.paren_init, V2.maybe_uninit.new_object,
      V2.maybe_uninit.object_const; simpl. rewrite Hh; simpl.
    eexists _, _. split; [reflexivity|].
    unfold noexcept, bind, placement_new; simpl. rewrite Hw; simpl.
    split; [reflexivity|apply Hload].
  - unfold call, V2.maybe_uninit.brace_init, V2.maybe_uninit.new_object,
      V2.maybe_uninit.object_const; simpl. rewrite Hh; simpl.
    eexists _, _. split; [reflexivity|].
    unfold noexcept, bind, placement_new; simpl. rewrite Hw; simpl.
    split; [reflexivity|apply Hload].
  - unfold call, V1.maybe_uninit.init, V1.maybe_uninit.non_const_member; simpl.
    rewrite Hh; simpl.
    eexists _, _. split; [reflexivity|].
    unfold noexcept, discard, bind, placement_new; simpl. rewrite Hw; simpl.
    split; [reflexivity|apply Hload].
  - pose proof (int_word_ok t) as Hok. unfold int_value, convert.
    destruct (int_signed t).
    + rewrite word.signed_of_Z. unfold word.swrap.
      pose proof (int_width_pos t).
      assert (0 < 2 ^ (int_width t - 1))%Z by (apply Z.pow_pos_nonneg; lia).
      assert (2 ^ int_width t = 2 * 2 ^ (int_width t - 1))%Z as ->.
      { rewrite <- Z.pow_succ_r by lia. f_equal. lia. }
      rewrite Z.mod_small; lia.
    + apply word.unsigned_of_Z_0.
Qed.

(** On a cell that held the integer 42, [default_init] leaves an integer
    that cannot be read. *)
Lemma X8_default_init_is_indeterminate_witness :
  h_const (this 1%N) = false /\
  cells world42l !! h_addr (this 1%N) = Some cell42l /\
  exists m w',
    call (V2.maybe_uninit.default_init (int_payload little uint32_t) (this 1%N)) = Some m /\
    m world42l = (Returned {| r_addr := 1%N; r_const := false; r_cat := lvalue |}, w') /\
    load (int_payload little uint32_t) w'
      {| r_addr := 1%N; r_const := false; r_cat := lvalue |} = None /\
    exists cl', cells w' !! 1%N = Some cl' /\ live cl' = true.
Proof.
  split; [reflexivity|]. split; [reflexivity|].
  apply (X8_default_init_is_indeterminate little uint32_t (this 1%N) world42l cell42l);
    reflexivity.
Defined.

(** ** The byte view and the object representation *)

(** X9. For a trivially copyable payload type, through a non-const handle
    on a cell in which an object is alive, writing the object
    representation of a value through the byte view and then reading
    through [ref] gives that value, whatever value the object had before,
    if any. *)
Theorem X9_byte_view_round_trip {Arg} (T : payload Arg) (self : handle) (w : world)
    (cl : cell) (v : obj T) :
  payload_ok T ->
  is_trivially_copyable T = true ->
  h_const self = false ->
  is_const T = false ->
  cells w !! h_addr self = Some cl ->
  live cl = true ->
  length (storage cl) = size_of T ->
  write_bytes_then_read T self (encode T v) w = Some (Returned (Some v)).
Proof.
  intros HT _ Hh Hc Hw Hlv Hl.
  unfold write_bytes_then_read, call, V2.maybe_uninit.bytes, V2.maybe_uninit.ref,
    V2.maybe_uninit.byte_type_const, V2.maybe_uninit.object_const, V2.detail.const_ref,
    deduce_Self, is_reference_v, is_const_v, remove_reference_t, span_write; simpl.
  rewrite Hh, Hc; simpl.
  assert (Hle : Nat.leb (length (storage cl)) (length (encode T v)) = true)
    by (apply Nat.leb_le; rewrite (encode_length T HT v); lia).
  destruct (h_cat self); simpl;
    unfold noexcept, bind, ret; simpl; rewrite Hw; simpl;
    rewrite (encode_length T HT v), Nat.leb_refl; simpl;
    unfold load; simpl; rewrite lookup_insert_eq; simpl;
    rewrite drop_ge by lia; rewrite app_nil_r;
    rewrite (encode_length T HT v) in Hle;
    rewrite Hlv, Hle, orb_true_r; simpl;
    now rewrite (decode_encode T HT v).
Qed.

Lemma X9_byte_view_round_trip_witness :
  payload_ok (int_payload little uint32_t) /\
  is_trivially_copyable (int_payload little uint32_t) = true /\
  h_const (this 1%N) = false /\
  is_const (int_payload little uint32_t) = false /\
  cells world_default !! h_addr (this 1%N) = Some cell_default /\
  live cell_default = true /\
  length (storage cell_default) = size_of (int_payload little uint32_t) /\
  write_bytes_then_read (int_payload little uint32_t) (this 1%N)
    (encode (int_payload little uint32_t) (convert uint32_t 0x01234567)) world_default
  = Some (Returned (Some (convert uint32_t 0x01234567))).
Proof.
  split; [apply int_payload_ok|]. split; [reflexivity|]. split; [reflexivity|].
  split; [reflexivity|]. split; [reflexivity|]. split; [reflexivity|].
  split; [reflexivity|].
  apply (X9_byte_view_round_trip (int_payload little uint32_t) (this 1%N)
           world_default cell_default);
    [apply int_payload_ok|reflexivity..].
Defined.

(** X10. After a construction strategy of the later variant completes with
    the value [v], the byte view taken through any lvalue handle on the
    cell, const or not, reads as the object representation of [v]; taken
    through a const handle it is a view of const bytes, through which a
    write does not compile. *)
Theorem X10_byte_view_shows_representation {Arg} (T : payload Arg) (self viewer : handle)
    (tag : init_tag Arg) (w : world) (cl : cell) (v : obj T) (bs : list byte) :
  payload_ok T ->
  h_const self = false ->
  is_const T = false ->
  cells w !! h_addr self = Some cl ->
  initialise T (form T tag) = Some (Returned (Some v)) ->
  h_addr viewer = h_addr self ->
  h_cat viewer = lvalue ->
  exists m r w1 rd mb s,
    call (V2_member T self tag) = Some m /\
    m w = (Returned r, w1) /\
    read_bytes T viewer = Some rd /\
    rd w1 = (Returned (encode T v), w1) /\
    call (V2.maybe_uninit.bytes T viewer) = Some mb /\
    mb w1 = (Returned s, w1) /\
    s_const s = h_const viewer /\
    (h_const viewer = true -> span_write s bs = None).
Proof.
  intros HT Hh Hc Hw Hi Ha Hcat.
  destruct (V2_member_run T self tag w cl v Hh Hc Hw Hi) as (m & Hm & Hr).
  assert (Hb : V2.maybe_uninit.byte_type_const T viewer = h_const viewer).
  { unfold V2.maybe_uninit.byte_type_const, V2.detail.const_ref, deduce_Self,
      is_reference_v, is_const_v, remove_reference_t; simpl.
    rewrite Hcat, Hc; simpl. now rewrite orb_false_r. }
  assert (Hcall : call (V2.maybe_uninit.bytes T viewer) =
            Some (noexcept true (ret {| s_addr := h_addr viewer; s_extent := size_of T;
                                        s_const := h_const viewer |}))).
  { unfold call, V2.maybe_uninit.bytes, V2.maybe_uninit.object_const; simpl.
    rewrite Hb, Hc, orb_false_r, andb_negb_r. reflexivity. }
  exists m. eexists _, _, _, _, _. split; [exact Hm|]. split; [exact Hr|].
  split; [unfold read_bytes; rewrite Hcall; reflexivity|].
  split.
  - unfold bind, noexcept, ret, span_read; simpl. rewrite Ha, lookup_insert_eq; simpl.
    rewrite take_ge by (rewrite (encode_length T HT v); lia). reflexivity.
  - split; [exact Hcall|]. split; [reflexivity|]. split; [reflexivity|].
    intros Hv. unfold span_write; simpl. now rewrite Hv.
Qed.

(** The README's example: the first byte of [0x01234567] in a
    [std::uint32_t] cell is [0x67] on a little-endian target. *)
Lemma X10_byte_view_shows_representation_witness :
  let T := int_payload little uint32_t in
  let tag := brace_init_t [{| arg_type := uint32_t; arg_value := 0x01234567 |}] in
  let viewer := {| h_addr := 1%N; h_const := true; h_cat := lvalue |} in
  payload_ok T /\
  h_const (this 1%N) = false /\
  is_const T = false /\
  cells world0 !! h_addr (this 1%N) = Some cell0 /\
  initialise T (form T tag) = Some (Returned (Some (convert uint32_t 0x01234567))) /\
  h_addr viewer = h_addr (this 1%N) /\
  h_cat viewer = lvalue /\
  encode T (convert uint32_t 0x01234567) = pattern /\
  exists m r w1 rd mb s,
    call (V2_member T (this 1%N) tag) = Some m /\
    m world0 = (Returned r, w1) /\
    read_bytes T viewer = Some rd /\
    rd w1 = (Returned (encode T (convert uint32_t 0x01234567)), w1) /\
    call (V2.maybe_uninit.bytes T viewer) = Some mb /\
    mb w1 = (Returned s, w1) /\
    s_const s = h_const viewer /\
    (h_const viewer = true -> span_write s pattern = None).
Proof.
  intros T tag viewer.
  split; [apply int_payload_ok|]. split; [reflexivity|]. split; [reflexivity|].
  split; [reflexivity|]. split; [vm_compute; reflexivity|].
  split; [reflexivity|]. split; [reflexivity|]. split; [vm_compute; reflexivity|].
  apply (X10_byte_view_shows_representation T (this 1%N) viewer tag world0 cell0
           (convert uint32_t 0x01234567) pattern);
    [apply int_payload_ok|reflexivity|reflexivity|reflexivity|vm_compute; reflexivity
    |reflexivity|reflexivity].
Defined.

(** ** Construction and constness *)

(** X11. In the later variant no construction strategy compiles on a const
    handle; for a const payload type none compiles on any handle, nor does
    any tag constructor or free function of a strategy, so a cell of a
    const payload type can be created uninitialized and accessed but
    never initialised through the header. The accessors [ptr] and [ref]
    compile all the same and hand out a pointer and a reference to
    const. *)
Theorem X11_no_construction_through_const {Arg} (T : payload Arg) (self : handle)
    (a : addr) (tag : init_tag Arg) (t : Arg) (cat : value_category) :
  (h_const self || is_const T) = true ->
  call (V2_member T self tag) = None /\
  (is_const T = true ->
   call (V2_constructor T a tag) = None /\
   call (V2_free_function T a tag) = None /\
   call (V2.paren_init_deduced T a cat t) = None /\
   call (V2.brace_init_deduced T a cat t) = None) /\
  (exists m, call (V2.maybe_uninit.ctor a) = Some m /\ forall w, m w = (Returned tt, w)) /\
  (exists m, call (V2.maybe_uninit.ptr T self) = Some m /\
             forall w, m w = (Returned {| p_addr := h_addr self; p_const := true |}, w)) /\
  (exists m, call (V2.maybe_uninit.ref T self) = Some m /\
             forall w, m w = (Returned {| r_addr := h_addr self; r_const := true;
                                          r_cat := h_cat self |}, w)).
Proof.
  intros Hconst. split; [|split; [|split; [|split]]].
  - assert (Hnone : forall o, V2.maybe_uninit.new_object T o self = None).
    { intros [c|]; unfold V2.maybe_uninit.new_object, V2.maybe_uninit.object_const;
        [now rewrite Hconst|reflexivity]. }
    destruct tag; unfold V2_member, call; simpl; rewrite Hnone;
      match goal with |- (if ?c then _ else _) = _ => destruct c end; reflexivity.
  - intros Hc.
    repeat split; destruct tag, cat; unfold call; simpl;
      unfold V2.detail.default_constructible, V2.detail.paren_constructible_from,
        V2.detail.brace_constructible_from; rewrite ?Hc; reflexivity.
  - eexists; split; [reflexivity|]. intros w; reflexivity.
  - unfold call, V2.maybe_uninit.ptr, V2.maybe_uninit.object_const; simpl.
    rewrite Hconst. eexists; split; [reflexivity|]. intros w; reflexivity.
  - unfold call, V2.maybe_uninit.ref, V2.maybe_uninit.object_const; simpl.
    rewrite Hconst. eexists; split; [reflexivity|]. intros w; reflexivity.
Qed.

Lemma X11_no_construction_through_const_witness :
  let T := add_const (int_payload little uint32_t) in
  (h_const (this 1%N) || is_const T) = true /\
  call (V2_member T (this 1%N) (paren_init_t [int_literal 42])) = None.
Proof.
  intros T. split; [reflexivity|].
  apply (X11_no_construction_through_const T (this 1%N) 1%N
           (paren_init_t [int_literal 42]) (int_literal 42) rvalue).
  reflexivity.
Defined.
